(** * H5P Agamotto slider (scripts/slider.js): model and verified properties

    The slider keeps a thumb on a track of [trackWidth] pixels.  Its methods
    are embedded as functions on an explicit [Slider] state that return the
    new state together with the notifications sent to the host
    ([trigger('update', ...)], [parent.xAPIInteracted()],
    [parent.xAPICompleted()]).  Only the logic is modelled; creation of DOM
    nodes and the placement of ticks and labels is presentation.

    JavaScript numbers are modelled by [JS.number]: the rationals extended
    with [NaN] and the two infinities.  Arithmetic is exact: the rounding of
    binary64, overflow and the sign of zero are not modelled.  A property
    that depends on a product or a quotient is therefore stated either for
    whole numbers small enough for binary64 to compute them exactly, or up
    to the rounding (a percentage or a step index within 0.501 of the exact
    value instead of within 0.5), so that it describes the double precision
    computation of the script as well. *)

From Stdlib Require Import ZArith QArith Qabs Qround Lqa Lia.
From Stdlib Require Import List String Ascii Bool Setoid Morphisms.
Import ListNotations.

(* ================================================================== *)
(** * Part I: definitions *)
(* ================================================================== *)

(** ** JavaScript numbers and the built-ins the slider calls *)

Module JS.

Inductive number : Type :=
| NaN
| NegInf
| Fin (q : Q)
| PosInf.

(** Finite results are kept in lowest terms, so that equal numbers computed
    along different paths are equal terms. *)
Definition fin (q : Q) : number := Fin (Qred q).

Definition ofZ (z : Z) : number := Fin (inject_Z z).

Definition neg (a : number) : number :=
  match a with
  | NaN => NaN
  | NegInf => PosInf
  | Fin q => fin (- q)
  | PosInf => NegInf
  end.

Definition add (a b : number) : number :=
  match a, b with
  | NaN, _ | _, NaN => NaN
  | Fin p, Fin q => fin (p + q)
  | PosInf, NegInf | NegInf, PosInf => NaN
  | PosInf, _ | _, PosInf => PosInf
  | NegInf, _ | _, NegInf => NegInf
  end.

Definition sub (a b : number) : number := add a (neg b).

(** An infinity with the sign of [c] (the sign of a finite factor). *)
Definition signed_inf (positive : bool) (c : comparison) : number :=
  match c with
  | Eq => NaN
  | Gt => if positive then PosInf else NegInf
  | Lt => if positive then NegInf else PosInf
  end.

Definition mul (a b : number) : number :=
  match a, b with
  | NaN, _ | _, NaN => NaN
  | Fin p, Fin q => fin (p * q)
  | PosInf, Fin q | Fin q, PosInf => signed_inf true (q ?= 0)%Q
  | NegInf, Fin q | Fin q, NegInf => signed_inf false (q ?= 0)%Q
  | PosInf, PosInf | NegInf, NegInf => PosInf
  | PosInf, NegInf | NegInf, PosInf => NegInf
  end.

(** [x / 0] is an infinity for [x <> 0] and [NaN] for [0 / 0]. *)
Definition div (a b : number) : number :=
  match a, b with
  | NaN, _ | _, NaN => NaN
  | Fin p, Fin q =>
      if Qeq_bool q 0 then signed_inf true (p ?= 0)%Q else fin (p / q)
  | Fin _, _ => Fin 0
  | PosInf, Fin q => if Qle_bool 0 q then PosInf else NegInf
  | NegInf, Fin q => if Qle_bool 0 q then NegInf else PosInf
  | _, _ => NaN
  end.

(** [a <= b]; every comparison with [NaN] is false. *)
Definition leb (a b : number) : bool :=
  match a, b with
  | NaN, _ | _, NaN => false
  | NegInf, _ | _, PosInf => true
  | Fin p, Fin q => Qle_bool p q
  | _, _ => false
  end.

(** [Math.max] and [Math.min]: [NaN] as soon as one argument is. *)
Definition max (a b : number) : number :=
  match a, b with
  | NaN, _ | _, NaN => NaN
  | _, _ => if leb a b then b else a
  end.

Definition min (a b : number) : number :=
  match a, b with
  | NaN, _ | _, NaN => NaN
  | _, _ => if leb b a then b else a
  end.

(** [Math.round]: the nearest integer, a tie going to the larger one. *)
Definition round (a : number) : number :=
  match a with
  | Fin q => ofZ (Qfloor (q + (1 # 2)))
  | _ => a
  end.

(** *** Number to string, as far as [parseInt] looks

    [parseInt(x)] first prints the number [x].  A number equal to 0 or of
    magnitude in [1e-6, 1e21) is printed in plain decimal notation, every
    other one with an exponent ("5e-7", "1.5e+21"), and then [parseInt]
    reads the leading digit only. *)
Definition fixed_notationb (a : Q) : bool :=
  Qeq_bool a 0 ||
  (Qle_bool (1 # 1000000) a && negb (Qle_bool (inject_Z (10 ^ 21)) a)).

(** The same as a proposition on the number itself: JavaScript prints it
    without an exponent. *)
Definition plain_decimal (q : Q) : Prop :=
  (q == 0 \/ (1 # 1000000 <= Qabs q /\ Qabs q < inject_Z (10 ^ 21)))%Q.

Fixpoint scale_up (fuel : nat) (a : Q) : Q :=
  match fuel with
  | O => a
  | S f => if Qle_bool 1 a then a else scale_up f (a * 10)
  end.

Fixpoint scale_down (fuel : nat) (z : Z) : Z :=
  match fuel with
  | O => z
  | S f => if (z <? 10)%Z then z else scale_down f (z / 10)
  end.

(** First significant decimal digit of a positive rational. *)
Definition leading_digit (a : Q) : Z :=
  if Qle_bool 1 a
  then let z := Qfloor a in scale_down (S (Z.to_nat (Z.log2 z))) z
  else Qfloor (scale_up (S (Z.to_nat (Z.log2 (Zpos (Qden a))))) a).

(** Truncation toward zero. *)
Definition Qtrunc (q : Q) : Z :=
  if Qle_bool 0 q then Qfloor q else (- Qfloor (- q))%Z.

(** [parseInt] of a number. *)
Definition parseInt_num (a : number) : number :=
  match a with
  | Fin q =>
      let m := if fixed_notationb (Qabs q) then Qfloor (Qabs q)
               else leading_digit (Qabs q) in
      ofZ (if Qle_bool 0 q then m else - m)
  | _ => NaN
  end.

(** *** [parseInt] of a string: white space, a sign, "0x" for radix 16, then
    the longest run of digits; [NaN] when there is no digit. *)
Definition is_space (c : ascii) : bool :=
  let n := N_of_ascii c in
  ((n =? 32) || ((9 <=? n) && (n <=? 13)))%N.

Fixpoint skip_space (s : string) : string :=
  match s with
  | String c r => if is_space c then skip_space r else s
  | EmptyString => s
  end.

Definition digit_val (c : ascii) : option Z :=
  let n := Z.of_N (N_of_ascii c) in
  if ((48 <=? n) && (n <=? 57))%Z then Some (n - 48)%Z
  else if ((97 <=? n) && (n <=? 122))%Z then Some (n - 87)%Z
  else if ((65 <=? n) && (n <=? 90))%Z then Some (n - 55)%Z
  else None.

Fixpoint digits (radix : Z) (s : string) (acc : option Z) : option Z :=
  match s with
  | String c r =>
      match digit_val c with
      | Some d =>
          if (d <? radix)%Z
          then digits radix r
                 (Some (match acc with Some a => a * radix + d | None => d end))%Z
          else acc
      | None => acc
      end
  | EmptyString => acc
  end.

Definition parseInt_str (s : string) : number :=
  let s1 := skip_space s in
  let '(negative, s2) :=
    match s1 with
    | String "-" r => (true, r)
    | String "+" r => (false, r)
    | _ => (false, s1)
    end in
  let '(radix, s3) :=
    match s2 with
    | String "0" (String "x" r) | String "0" (String "X" r) => (16%Z, r)
    | _ => (10%Z, s2)
    end in
  match digits radix s3 None with
  | Some z => ofZ (if negative then - z else z)
  | None => NaN
  end.

(** Equality of numbers up to the representation of the fraction. *)
Definition num_eq (a b : number) : Prop :=
  match a, b with
  | NaN, NaN | NegInf, NegInf | PosInf, PosInf => True
  | Fin p, Fin q => p == q
  | _, _ => False
  end.

End JS.

Declare Scope js_scope.
Delimit Scope js_scope with js.
Bind Scope js_scope with JS.number.
Infix "+" := JS.add : js_scope.
Infix "-" := JS.sub : js_scope.
Infix "*" := JS.mul : js_scope.
Infix "/" := JS.div : js_scope.
Infix "<=?" := JS.leb : js_scope.
Infix "=n=" := JS.num_eq (at level 70) : js_scope.

Import JS.
Local Open Scope js_scope.
Local Open Scope string_scope.

(** ** What the slider receives and reads *)

(** A mouse or touch event, as far as [setPosition] and [getPointerX] look at
    it: its [type], [touches[0].pageX] when the event has a [touches] list,
    and [clientX]. *)
Record DomEvent : Type := {
  ev_type : string;
  ev_touches : option number;
  ev_clientX : number
}.

(** The [position] argument of [setPosition], by its [typeof]. *)
Inductive jsval : Type :=
| VStr (s : string)      (* 'string' *)
| VNum (n : number)      (* 'number' *)
| VEvent (e : DomEvent)  (* 'object' *)
| VOther.                (* undefined, a boolean, ... *)

(** The layout the browser reports when the slider asks. *)
Record Layout : Type := {
  containerMarginLeft : string; (* getComputedStyle(container).marginLeft *)
  parentPaddingLeft : string;   (* getComputedStyle(querySelector(selector)).paddingLeft *)
  parentMarginLeft : string;    (* getComputedStyle(querySelector(selector)).marginLeft *)
  containerOffsetWidth : number (* container.offsetWidth *)
}.

(** What the slider tells its host. *)
Inductive Notification : Type :=
| Update (position percentage : number) (* trigger('update', {position, percentage}) *)
| XAPIInteracted                        (* parent.xAPIInteracted() *)
| XAPICompleted.                        (* parent.xAPICompleted() *)

(** ** The slider object *)

Record Slider : Type := {
  opt_snap : bool;             (* options.snap === true *)
  opt_size : number;           (* options.size *)
  trackWidth : number;
  ratio : number;
  mousedown : bool;
  keydown : option Z;          (* false, or the key code held *)
  sliderdown : bool;           (* undefined until the first press; only tested with === true *)
  thumb_left : option number;  (* thumb.style.left: '' or n + 'px' *)
  disabled : bool;             (* thumb has class h5p-agamotto-disabled *)
  transition : bool;           (* thumb has class h5p-agamotto-transition *)
  aria_valuenow : number;      (* container attribute aria-valuenow *)
  touchmove_listeners : nat    (* touchmove listeners added so far *)
}.

Definition TRACK_OFFSET : number := Fin 16.
Definition THUMB_OFFSET : number := Fin 8.

(** The constructor: [options.snap] defaults to true when undefined. *)
Definition Slider_new (snap : option bool) (size : number) : Slider :=
  {| opt_snap := match snap with None => true | Some b => b end;
     opt_size := size;
     trackWidth := Fin 0;
     ratio := Fin 0;
     mousedown := false;
     keydown := None;
     sliderdown := false;
     thumb_left := None;
     disabled := false;
     transition := false;
     aria_valuenow := Fin 0;
     touchmove_listeners := O |}.

Definition set_trackWidth (w : number) (s : Slider) : Slider :=
  {| opt_snap := opt_snap s; opt_size := opt_size s; trackWidth := w;
     ratio := ratio s; mousedown := mousedown s; keydown := keydown s;
     sliderdown := sliderdown s; thumb_left := thumb_left s;
     disabled := disabled s; transition := transition s;
     aria_valuenow := aria_valuenow s;
     touchmove_listeners := touchmove_listeners s |}.

Definition set_mousedown (b : bool) (s : Slider) : Slider :=
  {| opt_snap := opt_snap s; opt_size := opt_size s; trackWidth := trackWidth s;
     ratio := ratio s; mousedown := b; keydown := keydown s;
     sliderdown := sliderdown s; thumb_left := thumb_left s;
     disabled := disabled s; transition := transition s;
     aria_valuenow := aria_valuenow s;
     touchmove_listeners := touchmove_listeners s |}.

Definition set_keydown (k : option Z) (s : Slider) : Slider :=
  {| opt_snap := opt_snap s; opt_size := opt_size s; trackWidth := trackWidth s;
     ratio := ratio s; mousedown := mousedown s; keydown := k;
     sliderdown := sliderdown s; thumb_left := thumb_left s;
     disabled := disabled s; transition := transition s;
     aria_valuenow := aria_valuenow s;
     touchmove_listeners := touchmove_listeners s |}.

Definition set_sliderdown (b : bool) (s : Slider) : Slider :=
  {| opt_snap := opt_snap s; opt_size := opt_size s; trackWidth := trackWidth s;
     ratio := ratio s; mousedown := mousedown s; keydown := keydown s;
     sliderdown := b; thumb_left := thumb_left s;
     disabled := disabled s; transition := transition s;
     aria_valuenow := aria_valuenow s;
     touchmove_listeners := touchmove_listeners s |}.

Definition set_disabled (b : bool) (s : Slider) : Slider :=
  {| opt_snap := opt_snap s; opt_size := opt_size s; trackWidth := trackWidth s;
     ratio := ratio s; mousedown := mousedown s; keydown := keydown s;
     sliderdown := sliderdown s; thumb_left := thumb_left s;
     disabled := b; transition := transition s;
     aria_valuenow := aria_valuenow s;
     touchmove_listeners := touchmove_listeners s |}.

Definition add_touchmove_listener (s : Slider) : Slider :=
  {| opt_snap := opt_snap s; opt_size := opt_size s; trackWidth := trackWidth s;
     ratio := ratio s; mousedown := mousedown s; keydown := keydown s;
     sliderdown := sliderdown s; thumb_left := thumb_left s;
     disabled := disabled s; transition := transition s;
     aria_valuenow := aria_valuenow s;
     touchmove_listeners := S (touchmove_listeners s) |}.

(** The writes of [setPosition]: the transition class, the ratio, the thumb's
    [style.left] and [aria-valuenow]. *)
Definition place_thumb (animate : bool) (r : number) (left percentage : number)
    (s : Slider) : Slider :=
  {| opt_snap := opt_snap s; opt_size := opt_size s; trackWidth := trackWidth s;
     ratio := r; mousedown := mousedown s; keydown := keydown s;
     sliderdown := sliderdown s; thumb_left := Some left;
     disabled := disabled s; transition := animate;
     aria_valuenow := percentage;
     touchmove_listeners := touchmove_listeners s |}.

(** A method or handler: the new state and what was sent to the host. *)
Definition Action : Type := Slider -> Slider * list Notification.

Definition and_then (a b : Action) : Action :=
  fun s => let (s1, o1) := a s in
           let (s2, o2) := b s1 in (s2, o1 ++ o2)%list.

Fixpoint times (n : nat) (a : Action) : Action :=
  match n with
  | O => fun s => (s, [])
  | S k => and_then a (times k a)
  end.

(** ** Helpers of the parent class, not part of slider.js *)

(** Modelled from the spec: [Agamotto.constrain] is defined outside
    slider.js; "resulting raw value is clamped to [0, trackWidth]".  The clamp
    is taken with [Math.max] and [Math.min]. *)
Definition constrain (value lo hi : number) : number :=
  JS.min hi (JS.max lo value).

(** Modelled from the spec: [Agamotto.map] is defined outside slider.js;
    "map(v, inLo, inHi, outLo, outHi) =
     outLo + (v - inLo) * (outHi - outLo) / (inHi - inLo)". *)
Definition map (v inLo inHi outLo outHi : number) : number :=
  outLo + (v - inLo) * (outHi - outLo) / (inHi - inLo).

(** ** The methods of [Agamotto.Slider.prototype] *)

Definition disable (s : Slider) : Slider := set_disabled true s.
Definition enable (s : Slider) : Slider := set_disabled false s.

Definition setWidth (value : number) (s : Slider) : Slider :=
  set_trackWidth value s.

Definition getWidth (s : Slider) : number := trackWidth s.

Definition getPointerX (e : DomEvent) : number :=
  match ev_touches e with
  | Some pageX => pageX
  | None => ev_clientX e
  end.

(** [parseInt(thumb.style.left) - THUMB_OFFSET], or 0 while the style is
    empty.  The style is taken as a plain store: it holds the [n + 'px'] last
    assigned, whose leading integer is that of the printed [n]. *)
Definition getPosition (s : Slider) : number :=
  match thumb_left s with
  | Some n => parseInt_num n - THUMB_OFFSET
  | None => Fin 0
  end.

(** The pixel offset [setPosition] computes from its argument, before the
    clamp; [None] for a mousemove while no button is down (the early
    return). *)
Definition rawPosition (L : Layout) (position : jsval) (s : Slider)
    : option number :=
  match position with
  | VStr str => Some (parseInt_str str)
  | VNum n => Some (parseInt_num n)
  | VEvent e =>
      if negb (mousedown s) && (ev_type e =? "mousemove")%string then None
      else Some (getPointerX e - TRACK_OFFSET
                 - parseInt_str (containerMarginLeft L)
                 - parseInt_str (parentPaddingLeft L)
                 - parseInt_str (parentMarginLeft L))
  | VOther => Some (Fin 0)
  end.

Definition percentage_of (position width : number) : number :=
  JS.round (position / width * Fin 100).

Definition setPosition (L : Layout) (position : jsval) (animate resize : bool)
    : Action :=
  fun s =>
    if disabled s then (s, [])
    else
      match rawPosition L position s with
      | None => (s, [])
      | Some raw =>
          let position := constrain raw (Fin 0) (getWidth s) in
          let r := if resize then ratio s else position / getWidth s in
          let percentage := percentage_of position (getWidth s) in
          (place_thumb animate r (position + THUMB_OFFSET) percentage s,
           [Update position percentage])
      end.

(** The argument [snap] passes to [setPosition]. *)
Definition snapTarget (s : Slider) : number :=
  let snapIndex := JS.round (map (ratio s) (Fin 0) (Fin 1) (Fin 0) (opt_size s)) in
  snapIndex * getWidth s / opt_size s.

Definition release_interaction : Action :=
  fun s =>
    if sliderdown s
    then (set_sliderdown false s, [XAPIInteracted; XAPICompleted])
    else (s, []).

Definition snap (L : Layout) : Action :=
  fun s =>
    and_then
      (if opt_snap s
       then setPosition L (VNum (snapTarget s)) true false
       else fun s0 => (s0, []))
      release_interaction s.

(** [resize]: the width is the container's minus the track offset on both
    sides; the thumb is put back at the stored ratio.  The placement of ticks
    and labels that follows writes styles only. *)
Definition resize (L : Layout) : Action :=
  fun s =>
    let s1 := setWidth (parseInt_num (containerOffsetWidth L)
                        - Fin 2 * TRACK_OFFSET) s in
    setPosition L (VNum (getWidth s1 * ratio s1)) false true s1.

(** ** The event listeners installed by the constructor, and the calls of
    the host

    A click on a tick calls [setPosition(parseInt(tick.style.left) -
    TRACK_OFFSET, true)]: it is a [CallSetPosition] with a number.  Every
    [touchstart] adds one more [touchmove] listener to the container, so a
    [touchmove] runs [setPosition] once per listener added so far. *)

Inductive Event : Type :=
| DocMouseMove (clientX : number)
| DocMouseUp
| TrackMouseDown (clientX : number)
| ThumbMouseDown (clientX : number)
| TouchStart (pageX : number)
| TouchMove (pageX : number)
| TouchEnd
| ThumbKeyDown (key : Z)
| ThumbKeyUp
| CallSetPosition (position : jsval) (animate : bool)
| CallResize
| CallDisable
| CallEnable.

Definition mouse_event (type : string) (clientX : number) : DomEvent :=
  {| ev_type := type; ev_touches := None; ev_clientX := clientX |}.

Definition touch_event (type : string) (pageX : number) : DomEvent :=
  {| ev_type := type; ev_touches := Some pageX; ev_clientX := NaN |}.

Definition press (L : Layout) (e : DomEvent) : Action :=
  fun s => setPosition L (VEvent e) false false
             (set_sliderdown true (set_mousedown true s)).

Definition key_held (k : Z) (s : Slider) : bool :=
  match keydown s with
  | None => true
  | Some h => (h =? k)%Z
  end.

Definition key_step (L : Layout) (k : Z) (delta : number -> number -> number)
    : Action :=
  fun s =>
    let s1 := set_keydown (Some k) s in
    setPosition L
      (VNum (delta (getPosition s1) (Fin (1 # 100) * parseInt_num (getWidth s1))))
      false false s1.

Definition on_keydown (L : Layout) (key : Z) : Action :=
  and_then
    (fun s => if (key =? 37)%Z && key_held 37 s
              then key_step L 37 JS.sub s else (s, []))
    (fun s => if (key =? 39)%Z && key_held 39 s
              then key_step L 39 JS.add s else (s, [])).

Definition handle (L : Layout) (ev : Event) : Action :=
  match ev with
  | DocMouseMove x => setPosition L (VEvent (mouse_event "mousemove" x)) false false
  | DocMouseUp => fun s => snap L (set_mousedown false s)
  | TrackMouseDown x => press L (mouse_event "mousedown" x)
  | ThumbMouseDown x => press L (mouse_event "mousedown" x)
  | TouchStart x =>
      and_then (setPosition L (VEvent (touch_event "touchstart" x)) false false)
               (fun s => (add_touchmove_listener s, []))
  | TouchMove x =>
      fun s => times (touchmove_listeners s)
                 (setPosition L (VEvent (touch_event "touchmove" x)) false false) s
  | TouchEnd => snap L
  | ThumbKeyDown key => on_keydown L key
  | ThumbKeyUp => and_then (snap L) (fun s => (set_keydown None s, []))
  | CallSetPosition position animate => setPosition L position animate false
  | CallResize => resize L
  | CallDisable => fun s => (disable s, [])
  | CallEnable => fun s => (enable s, [])
  end.

(** A run of the slider: each event comes with the layout of that moment. *)
Fixpoint run (tr : list (Layout * Event)) : Action :=
  match tr with
  | [] => fun s => (s, [])
  | (L, ev) :: rest => and_then (handle L ev) (run rest)
  end.

(** The host notifications about a completed interaction, in order. *)
Definition is_xapi (n : Notification) : bool :=
  match n with
  | Update _ _ => false
  | _ => true
  end.

Definition xapi (out : list Notification) : list Notification :=
  filter is_xapi out.

Definition is_press (ev : Event) : bool :=
  match ev with
  | TrackMouseDown _ | ThumbMouseDown _ => true
  | _ => false
  end.

(** ** Concrete sliders used as test inputs *)

Definition layout0 : Layout :=
  {| containerMarginLeft := "0px"; parentPaddingLeft := "0px";
     parentMarginLeft := "0px"; containerOffsetWidth := Fin 232 |}.

(** A fresh slider for four images (size 3) on a track of 100 pixels. *)
Definition slider100 : Slider := setWidth (Fin 100) (Slider_new None (Fin 3)).

(** A slider for a single image (size 0) on a track of 100 pixels. *)
Definition slider_single : Slider :=
  setWidth (Fin 100) (Slider_new None (Fin 0)).

(** The layout of a container that is not displayed: its width is 0. *)
Definition layout_hidden : Layout :=
  {| containerMarginLeft := "0px"; parentPaddingLeft := "0px";
     parentMarginLeft := "0px"; containerOffsetWidth := Fin 0 |}.


(** [slider100] with the thumb put at pixel 30 (ratio 0.3) and at pixel 50. *)
Definition slider100_at30 : Slider :=
  fst (setPosition layout0 (VNum (Fin 30)) false false slider100).

Definition slider100_at50 : Slider :=
  fst (setPosition layout0 (VNum (Fin 50)) false false slider100).

(** Five images (size 4) on a track of 200 pixels, the thumb at pixel 60
    (ratio 0.3). *)
Definition slider200_at60 : Slider :=
  fst (setPosition layout0 (VNum (Fin 60)) false false
         (setWidth (Fin 200) (Slider_new None (Fin 4)))).


(** The two direction keys, and the move each makes. *)
Definition opposite_key (k : Z) : Z := if (k =? 37)%Z then 39%Z else 37%Z.

Definition key_delta (k : Z) : number -> number -> number :=
  if (k =? 37)%Z then JS.sub else JS.add.

(** An action that leaves the interaction flag alone and sends nothing but
    updates. *)
Definition quiet (a : Action) : Prop :=
  forall s, sliderdown (fst (a s)) = sliderdown s /\ xapi (snd (a s)) = [].

(** An action that ends a pending interaction: it tells the host, once and
    in order, when the flag is up, and nothing when it is not. *)
Definition fires (a : Action) : Prop :=
  forall s,
    sliderdown (fst (a s)) = false /\
    xapi (snd (a s)) =
      if sliderdown s then [XAPIInteracted; XAPICompleted] else [].

Definition no_press (tr : list (Layout * Event)) : bool :=
  forallb (fun x => negb (is_press (snd x))) tr.

(** ** Ticks and labels: the loops of the constructor and of [resize] *)

Definition ofNat (n : nat) : number := ofZ (Z.of_nat n).

(** How many ticks (and labels) [for (i = 0; i <= options.size; i++)]
    creates; the loop does not end when the size is [Infinity]. *)
Definition marks_created (size : number) : option nat :=
  match size with
  | Fin q => Some (if Qle_bool 0 q then S (Z.to_nat (Qfloor q)) else O)
  | PosInf => None
  | _ => Some O
  end.

(** [resize] gives tick [i] of [len] the style
    [left = TRACK_OFFSET + i * getWidth() / (len - 1) + 'px']. *)
Definition tick_left (W : number) (len i : nat) : number :=
  TRACK_OFFSET + ofNat i * W / (ofNat len - Fin 1).

Definition place_ticks (W : number) (len : nat) : list number :=
  List.map (tick_left W len) (seq 0 len).

(** The click listener of a tick:
    [setPosition(parseInt(this.style.left) - TRACK_OFFSET, true)], where the
    style is empty until the first [resize]. *)
Definition placeTicks (L : Layout) (left : option number) : Action :=
  setPosition L
    (VNum (match left with
           | Some n => parseInt_num n
           | None => NaN
           end - TRACK_OFFSET))
    true false.

(** The height [resize] gives the container when there are labels: the
    default height, the largest parsed label height and, without ticks, 7
    pixels less. *)
Definition CONTAINER_DEFAULT_HEIGHT : number := Fin 36.

Definition labels_height (ticks : bool) (heights : list string) : number :=
  let maxLabelHeight :=
    fold_left (fun m h => JS.max m (parseInt_str h)) heights (Fin 0) in
  let buffer := if ticks then Fin 0 else Fin (-7) in
  CONTAINER_DEFAULT_HEIGHT + maxLabelHeight + buffer.

(** ** Vocabulary for the properties of runs *)

(** A stored ratio is a fraction of the track, or [NaN]. *)
Definition unit_ratio (r : number) : Prop :=
  r = NaN \/ exists q : Q, r = Fin q /\ (0 <= q <= 1)%Q.

(** The update notifications of an output. *)
Definition updates (out : list Notification) : list Notification :=
  filter (fun n => negb (is_xapi n)) out.

(** The positions carried by the updates of an output, in order. *)
Definition positions (out : list Notification) : list number :=
  flat_map (fun n => match n with
                     | Update pos _ => [pos]
                     | _ => []
                     end) out.

Definition is_enable (ev : Event) : bool :=
  match ev with
  | CallEnable => true
  | _ => false
  end.

Definition no_enable (tr : list (Layout * Event)) : bool :=
  forallb (fun x => negb (is_enable (snd x))) tr.

(** An action that keeps a property of the slider. *)
Definition keeps (P : Slider -> Prop) (a : Action) : Prop :=
  forall s, P s -> P (fst (a s)).

(** The pixel offset of a pointer at [x] on the track: what [setPosition]
    computes from an event. *)
Definition pointer_offset (L : Layout) (x : number) : number :=
  x - TRACK_OFFSET
  - parseInt_str (containerMarginLeft L)
  - parseInt_str (parentPaddingLeft L)
  - parseInt_str (parentMarginLeft L).

(** The update sent for a pointer at [x] on a track of width [W]. *)
Definition clamped_offset (L : Layout) (x W : number) : number :=
  constrain (pointer_offset L x) (Fin 0) W.

Definition update_at (W : number) (m : Layout * number) : Notification :=
  Update (clamped_offset (fst m) (snd m) W)
         (percentage_of (clamped_offset (fst m) (snd m) W) W).


Definition mouse_moves (moves : list (Layout * number)) : list (Layout * Event) :=
  List.map (fun m => (fst m, DocMouseMove (snd m))) moves.

(** A narrow track of 50 pixels with the thumb at pixel 20. *)
Definition slider50_at20 : Slider :=
  fst (setPosition layout0 (VNum (Fin 20)) false false
         (setWidth (Fin 50) (Slider_new None (Fin 3)))).

(** The state [setPosition] leaves when it puts the thumb at [pos]. *)
Definition placed (animate : bool) (pos : number) (s : Slider) : Slider :=
  place_thumb animate (pos / trackWidth s) (pos + THUMB_OFFSET)
    (percentage_of pos (trackWidth s)) s.

(** What a disabled slider keeps whatever happens. *)
Definition frozen_as (s0 s : Slider) : Prop :=
  disabled s = true
  /\ thumb_left s = thumb_left s0
  /\ ratio s = ratio s0
  /\ transition s = transition s0
  /\ aria_valuenow s = aria_valuenow s0.

(* ================================================================== *)
(** * Part II: properties

    Numbers first ([parseInt] truncates in the plain range and reads one
    digit outside it; arithmetic respects [num_eq]), then the interaction
    flag along runs of events (C7, C8, C5), snapping with size 0 (C10), the
    clamp and the percentage (C2, C9), setting and reading positions
    (C1, C4), and the keys (C6).  Snapping to a step (C3) follows in Part
    III, next to the lemmas on [snap] it shares with snapping twice. *)
(* ================================================================== *)

(** ** Numbers *)

Section Numbers.

Local Open Scope Q_scope.

Lemma Qred_inject_Z (z : Z) : Qred (inject_Z z) = inject_Z z.
Proof.
  unfold Qred, inject_Z.
  generalize (Z.ggcd_gcd z 1) (Z.ggcd_correct_divisors z 1).
  destruct (Z.ggcd z 1) as [g [a b]]. simpl.
  rewrite Z.gcd_1_r. intros -> [Ha Hb].
  rewrite Z.mul_1_l in Ha, Hb. now subst.
Qed.

Lemma fin_inject_Z (z : Z) : fin (inject_Z z) = ofZ z.
Proof. unfold fin, ofZ. now rewrite Qred_inject_Z. Qed.

Lemma fin_compat (p q : Q) : p == q -> fin p = fin q.
Proof. intros H. unfold fin. f_equal. now apply Qred_complete. Qed.

Lemma fin_is_Z (q : Q) (z : Z) : q == inject_Z z -> fin q = ofZ z.
Proof. intros H. rewrite (fin_compat _ _ H). apply fin_inject_Z. Qed.

Lemma num_eq_refl (a : number) : (a =n= a)%js.
Proof. destruct a; simpl; auto with qarith. Qed.

Lemma Qle_bool_false (p q : Q) : Qle_bool p q = false <-> q < p.
Proof.
  split; intros H.
  - apply Qnot_le_lt. intros C. apply Qle_bool_iff in C. congruence.
  - destruct (Qle_bool p q) eqn:E; [| reflexivity].
    apply Qle_bool_iff in E. exfalso. apply (Qlt_not_le _ _ H E).
Qed.

Lemma fixed_notationb_plain (q : Q) :
  plain_decimal q -> fixed_notationb (Qabs q) = true.
Proof.
  unfold plain_decimal, fixed_notationb. intros [H | [H1 H2]].
  - apply orb_true_iff. left. apply Qeq_bool_iff. rewrite H. reflexivity.
  - apply orb_true_iff. right. apply andb_true_iff. split.
    + now apply Qle_bool_iff.
    + apply negb_true_iff. now apply Qle_bool_false.
Qed.

(** In plain notation [parseInt] truncates toward zero. *)
Lemma parseInt_num_plain (q : Q) :
  plain_decimal q -> parseInt_num (Fin q) = ofZ (Qtrunc q).
Proof.
  intros H. unfold parseInt_num, Qtrunc.
  rewrite (fixed_notationb_plain q H).
  destruct (Qle_bool 0 q) eqn:E.
  - apply Qle_bool_iff in E. now rewrite (Qabs_pos q E).
  - apply Qle_bool_false in E.
    rewrite (Qabs_neg q) by now apply Qlt_le_weak. reflexivity.
Qed.

Lemma inject_Z_nonneg (z : Z) : (0 <= z)%Z -> 0 <= inject_Z z.
Proof. intros H. change (inject_Z 0 <= inject_Z z). now rewrite <- Zle_Qle. Qed.

Lemma parseInt_num_ofZ (z : Z) :
  (0 <= z < 10 ^ 21)%Z -> parseInt_num (ofZ z) = ofZ z.
Proof.
  intros [H0 H1]. unfold ofZ at 1. rewrite parseInt_num_plain.
  - unfold Qtrunc.
    assert (E : Qle_bool 0 (inject_Z z) = true).
    { apply Qle_bool_iff. now apply inject_Z_nonneg. }
    rewrite E. now rewrite Qfloor_Z.
  - unfold plain_decimal.
    destruct (Z.eq_dec z 0) as [-> | Hz]; [left; reflexivity | right].
    rewrite Qabs_pos by now apply inject_Z_nonneg.
    split.
    + apply Qle_trans with (inject_Z 1).
      * unfold Qle. simpl. lia.
      * rewrite <- Zle_Qle. lia.
    + rewrite <- Zlt_Qlt. exact H1.
Qed.

(** *** The leading digit: the fuel is enough *)

Lemma scale_down_spec (fuel : nat) (z : Z) :
  (1 <= z < 10 ^ Z.of_nat fuel)%Z ->
  exists k : nat,
    (1 <= scale_down fuel z <= 9)%Z /\
    (scale_down fuel z * 10 ^ Z.of_nat k <= z
     < (scale_down fuel z + 1) * 10 ^ Z.of_nat k)%Z.
Proof.
  revert z. induction fuel as [| f IH]; intros z [H1 H2].
  - simpl in H2. lia.
  - cbn [scale_down]. destruct (z <? 10)%Z eqn:E.
    + apply Z.ltb_lt in E. exists O. simpl. lia.
    + apply Z.ltb_ge in E.
      rewrite Nat2Z.inj_succ, Z.pow_succ_r in H2 by lia.
      assert (Hq : (1 <= z / 10 < 10 ^ Z.of_nat f)%Z).
      { split.
        - apply Z.div_le_lower_bound; lia.
        - apply Z.div_lt_upper_bound; lia. }
      destruct (IH _ Hq) as [k [Hd Hk]]. exists (S k). split; [exact Hd |].
      rewrite Nat2Z.inj_succ, Z.pow_succ_r by lia.
      pose proof (Z.div_mod z 10 ltac:(lia)) as Hdm.
      pose proof (Z.mod_pos_bound z 10 ltac:(lia)) as Hmod.
      lia.
Qed.

Lemma pow10_above (z : Z) :
  (0 < z)%Z -> (z < 10 ^ Z.of_nat (S (Z.to_nat (Z.log2 z))))%Z.
Proof.
  intros Hz. pose proof (Z.log2_nonneg z) as Hl.
  destruct (Z.log2_spec z Hz) as [_ Hup].
  rewrite Nat2Z.inj_succ, Z2Nat.id by exact Hl.
  apply Z.lt_le_trans with (2 ^ Z.succ (Z.log2 z))%Z; [exact Hup |].
  apply Z.pow_le_mono_l. lia.
Qed.

Lemma scale_up_spec (fuel : nat) (a : Q) :
  0 < a -> a < 10 -> 1 <= a * inject_Z (10 ^ Z.of_nat fuel) ->
  exists k : nat,
    scale_up fuel a == a * inject_Z (10 ^ Z.of_nat k)
    /\ 1 <= scale_up fuel a /\ scale_up fuel a < 10.
Proof.
  revert a. induction fuel as [| f IH]; intros a H0 H10 Hf.
  - exists O. cbn [scale_up]. simpl in Hf. rewrite Qmult_1_r in Hf.
    split; [simpl; now rewrite Qmult_1_r | now split].
  - cbn [scale_up]. destruct (Qle_bool 1 a) eqn:E.
    + apply Qle_bool_iff in E. exists O.
      split; [simpl; now rewrite Qmult_1_r | now split].
    + apply Qle_bool_false in E.
      rewrite Nat2Z.inj_succ, Z.pow_succ_r, inject_Z_mult in Hf by lia.
      destruct (IH (a * 10)) as [k [Hk Hr]].
      * apply Qmult_lt_0_compat; [exact H0 | reflexivity].
      * setoid_replace 10 with (1 * 10) at 2 by ring.
        apply Qmult_lt_r; [reflexivity | exact E].
      * setoid_replace (a * 10 * inject_Z (10 ^ Z.of_nat f))
          with (a * (inject_Z 10 * inject_Z (10 ^ Z.of_nat f))) by ring.
        exact Hf.
      * exists (S k). split; [| exact Hr].
        rewrite Hk, Nat2Z.inj_succ, Z.pow_succ_r, inject_Z_mult by lia.
        change (inject_Z 10) with 10. ring.
Qed.

(** The digit [parseInt] reads from a number printed with an exponent is
    the first significant digit of the number. *)
Lemma leading_digit_spec (a : Q) :
  0 < a ->
  (1 <= leading_digit a <= 9)%Z /\
  exists k : nat,
    (1 <= a ->
     inject_Z (leading_digit a) * inject_Z (10 ^ Z.of_nat k) <= a
     /\ a < inject_Z (leading_digit a + 1) * inject_Z (10 ^ Z.of_nat k))
    /\ (a < 1 ->
        inject_Z (leading_digit a) <= a * inject_Z (10 ^ Z.of_nat k)
        /\ a * inject_Z (10 ^ Z.of_nat k) < inject_Z (leading_digit a + 1)).
Proof.
  intros Ha. unfold leading_digit. destruct (Qle_bool 1 a) eqn:E.
  - apply Qle_bool_iff in E.
    assert (Hz : (1 <= Qfloor a)%Z).
    { rewrite <- (Qfloor_Z 1). now apply Qfloor_resp_le. }
    destruct (scale_down_spec (S (Z.to_nat (Z.log2 (Qfloor a)))) (Qfloor a))
      as [k [Hd [Hlo Hhi]]].
    { split; [exact Hz | apply pow10_above; lia]. }
    split; [exact Hd |]. exists k. split.
    + intros _. rewrite <- !inject_Z_mult. split.
      * apply Qle_trans with (inject_Z (Qfloor a)); [| apply Qfloor_le].
        now rewrite <- Zle_Qle.
      * apply Qlt_le_trans with (inject_Z (Qfloor a + 1)); [apply Qlt_floor |].
        rewrite <- Zle_Qle. lia.
    + intros Hlt. exfalso. apply (Qlt_not_le _ _ Hlt E).
  - apply Qle_bool_false in E.
    set (fuel := S (Z.to_nat (Z.log2 (Zpos (Qden a))))).
    destruct (scale_up_spec fuel a Ha) as [k [Hk [H1 H10]]].
    { apply Qlt_trans with 1; [exact E | reflexivity]. }
    { pose proof (pow10_above (Zpos (Qden a)) ltac:(lia)) as Hp.
      fold fuel in Hp. destruct a as [n d]. unfold Qlt in Ha. simpl in Ha.
      unfold Qle. cbn [Qnum Qden Qmult inject_Z] in *.
      rewrite !Z.mul_1_r in *. rewrite Pos.mul_1_r. nia. }
    assert (Hd : (1 <= Qfloor (scale_up fuel a) <= 9)%Z).
    { split.
      - rewrite <- (Qfloor_Z 1). now apply Qfloor_resp_le.
      - assert (Hlt : (Qfloor (scale_up fuel a) < 10)%Z).
        { rewrite Zlt_Qlt. apply Qle_lt_trans with (scale_up fuel a);
            [apply Qfloor_le | exact H10]. }
        lia. }
    split; [exact Hd |]. exists k. split.
    + intros Hge. exfalso. apply (Qlt_not_le _ _ E Hge).
    + intros _. rewrite <- Hk. split; [apply Qfloor_le | apply Qlt_floor].
Qed.

(** Outside the plain range [parseInt] gives a single digit, with the sign
    of the number. *)
Lemma parseInt_num_exponent (q : Q) :
  ~ q == 0 -> fixed_notationb (Qabs q) = false ->
  exists d : Z, (1 <= d <= 9)%Z /\
    parseInt_num (Fin q) = ofZ (if Qle_bool 0 q then d else - d).
Proof.
  intros Hq Hf. unfold parseInt_num. rewrite Hf.
  exists (leading_digit (Qabs q)). split; [| reflexivity].
  apply leading_digit_spec.
  destruct (Qle_lt_or_eq _ _ (Qabs_nonneg q)) as [H | H]; [exact H |].
  exfalso. apply Hq.
  assert (Hle : Qabs q <= 0) by (rewrite <- H; apply Qle_refl).
  apply Qabs_Qle_condition in Hle. destruct Hle as [Hlo Hhi].
  now apply Qle_antisym.
Qed.

Example parseInt_examples :
  parseInt_num (Fin (61 # 2)) = Fin 30
  /\ parseInt_num (Fin (- (7 # 2))) = Fin (-3)
  /\ parseInt_num (Fin (5 # 10000000)) = Fin 5
  /\ parseInt_num (Fin (1 # 1000000)) = Fin 0
  /\ parseInt_num (Fin (inject_Z (3 * 10 ^ 21))) = Fin 3
  /\ parseInt_num PosInf = NaN
  /\ parseInt_str "  -12px" = Fin (-12)
  /\ parseInt_str "12.7px" = Fin 12
  /\ parseInt_str "0x1F" = Fin 31
  /\ parseInt_str "abc" = NaN
  /\ parseInt_str "" = NaN.
Proof. repeat split. Qed.

End Numbers.

(** ** Arithmetic up to the representation of fractions *)

Ltac js_unfold :=
  cbv [neg add sub mul div fin num_eq signed_inf leb JS.max JS.min JS.round].

#[global] Instance num_eq_equiv : Equivalence num_eq.
Proof.
  split.
  - intros a. apply num_eq_refl.
  - intros a b. destruct a, b; simpl; auto with qarith.
  - intros a b c. destruct a, b, c; simpl; try tauto. apply Qeq_trans.
Qed.

Lemma Qcompare_zero_compat (p q : Q) : (p == q)%Q -> (p ?= 0)%Q = (q ?= 0)%Q.
Proof. intros H. now rewrite H. Qed.

Lemma Qeq_bool_compat (p q r : Q) : (p == q)%Q -> Qeq_bool p r = Qeq_bool q r.
Proof.
  intros H. destruct (Qeq_bool q r) eqn:E.
  - apply Qeq_bool_iff. apply Qeq_bool_iff in E. now rewrite H.
  - destruct (Qeq_bool p r) eqn:E'; [| reflexivity].
    apply Qeq_bool_iff in E'. rewrite H in E'. apply Qeq_bool_iff in E'.
    congruence.
Qed.

Lemma Qle_bool_compat (p p' q q' : Q) :
  (p == p')%Q -> (q == q')%Q -> Qle_bool p q = Qle_bool p' q'.
Proof.
  intros H1 H2. destruct (Qle_bool p' q') eqn:E.
  - apply Qle_bool_iff. apply Qle_bool_iff in E. now rewrite H1, H2.
  - apply Qle_bool_false. apply Qle_bool_false in E. now rewrite H1, H2.
Qed.

#[global] Instance fin_proper : Proper (Qeq ==> eq) fin.
Proof. intros p q H. now apply fin_compat. Qed.

#[global] Instance Fin_proper : Proper (Qeq ==> num_eq) Fin.
Proof. intros p q H. exact H. Qed.

#[global] Instance neg_proper : Proper (num_eq ==> num_eq) neg.
Proof.
  intros a b H. destruct a, b; cbv [num_eq] in H; try tauto; js_unfold; trivial.
  rewrite !Qred_correct. now rewrite H.
Qed.

#[global] Instance add_proper : Proper (num_eq ==> num_eq ==> num_eq) add.
Proof.
  intros a b H c d H'. destruct a, b; cbv [num_eq] in H; try tauto;
    destruct c, d; cbv [num_eq] in H'; try tauto; js_unfold; trivial.
  rewrite !Qred_correct. now rewrite H, H'.
Qed.

#[global] Instance sub_proper : Proper (num_eq ==> num_eq ==> num_eq) sub.
Proof. intros a b H c d H'. unfold sub. now rewrite H, H'. Qed.

#[global] Instance mul_proper : Proper (num_eq ==> num_eq ==> num_eq) mul.
Proof.
  intros a b H c d H'. destruct a, b; cbv [num_eq] in H; try tauto;
    destruct c, d; cbv [num_eq] in H'; try tauto; cbv [mul]; try reflexivity;
    try (rewrite (Qcompare_zero_compat _ _ H); reflexivity);
    try (rewrite (Qcompare_zero_compat _ _ H'); reflexivity).
  js_unfold. rewrite !Qred_correct. now rewrite H, H'.
Qed.

#[global] Instance div_proper : Proper (num_eq ==> num_eq ==> num_eq) div.
Proof.
  intros a b H c d H'. destruct a, b; cbv [num_eq] in H; try tauto;
    destruct c, d; cbv [num_eq] in H'; try tauto; cbv [div]; try reflexivity;
    try (rewrite (Qle_bool_compat 0 0 _ _ (Qeq_refl 0) H'); reflexivity).
  rewrite (Qeq_bool_compat _ _ 0 H'), (Qcompare_zero_compat _ _ H).
  destruct (Qeq_bool q2 0) eqn:E; [reflexivity |].
  js_unfold. rewrite !Qred_correct. now rewrite H, H'.
Qed.

#[global] Instance leb_proper : Proper (num_eq ==> num_eq ==> eq) leb.
Proof.
  intros a b H c d H'. destruct a, b; cbv [num_eq] in H; try tauto;
    destruct c, d; cbv [num_eq] in H'; try tauto; cbv [leb]; trivial.
  now apply Qle_bool_compat.
Qed.

#[global] Instance max_proper : Proper (num_eq ==> num_eq ==> num_eq) JS.max.
Proof.
  intros a b H c d H'. unfold JS.max. rewrite (leb_proper a b H c d H').
  destruct a, b; cbv [num_eq] in H; try tauto;
    destruct c, d; cbv [num_eq] in H'; try tauto; try reflexivity;
    match goal with |- context [if ?c then _ else _] => destruct c end;
    trivial.
Qed.

#[global] Instance min_proper : Proper (num_eq ==> num_eq ==> num_eq) JS.min.
Proof.
  intros a b H c d H'. unfold JS.min. rewrite (leb_proper c d H' a b H).
  destruct a, b; cbv [num_eq] in H; try tauto;
    destruct c, d; cbv [num_eq] in H'; try tauto; try reflexivity;
    match goal with |- context [if ?c then _ else _] => destruct c end;
    trivial.
Qed.

#[global] Instance round_proper : Proper (num_eq ==> eq) JS.round.
Proof.
  intros a b H. destruct a, b; cbv [num_eq] in H; try tauto; trivial.
  cbv [JS.round ofZ]. f_equal. f_equal. apply Qfloor_comp. now rewrite H.
Qed.

Lemma add_Fin (p q : Q) : (Fin p + Fin q =n= Fin (p + q))%js.
Proof. js_unfold. apply Qred_correct. Qed.

Lemma sub_Fin (p q : Q) : (Fin p - Fin q =n= Fin (p - q))%js.
Proof. js_unfold. rewrite !Qred_correct. reflexivity. Qed.

Lemma mul_Fin (p q : Q) : (Fin p * Fin q =n= Fin (p * q))%js.
Proof. js_unfold. apply Qred_correct. Qed.

Lemma div_Fin (p q : Q) : ~ (q == 0)%Q -> (Fin p / Fin q =n= Fin (p / q))%js.
Proof.
  intros H. cbv [div]. destruct (Qeq_bool q 0) eqn:E.
  - apply Qeq_bool_iff in E. contradiction.
  - js_unfold. apply Qred_correct.
Qed.

Lemma div_zero_zero (p q : Q) : (p == 0)%Q -> (q == 0)%Q -> (Fin p / Fin q)%js = NaN.
Proof.
  intros Hp Hq. cbv [div signed_inf].
  rewrite (proj2 (Qeq_bool_iff q 0) Hq).
  now rewrite (proj1 (Qeq_alt p 0) Hp).
Qed.

(** ** Actions *)

Section Actions.

Lemma and_then_fst (a b : Action) (s : Slider) :
  fst (and_then a b s) = fst (b (fst (a s))).
Proof. unfold and_then. destruct (a s) as [s1 o1]. simpl. now destruct (b s1). Qed.

Lemma and_then_snd (a b : Action) (s : Slider) :
  snd (and_then a b s) = (snd (a s) ++ snd (b (fst (a s))))%list.
Proof. unfold and_then. destruct (a s) as [s1 o1]. simpl. now destruct (b s1). Qed.

Lemma xapi_app (o1 o2 : list Notification) :
  xapi (o1 ++ o2) = (xapi o1 ++ xapi o2)%list.
Proof. apply filter_app. Qed.

Lemma quiet_skip : quiet (fun s => (s, [])).
Proof. intros s. now split. Qed.

Lemma quiet_and_then (a b : Action) : quiet a -> quiet b -> quiet (and_then a b).
Proof.
  intros Ha Hb s. rewrite and_then_fst, and_then_snd, xapi_app.
  destruct (Ha s) as [Ha1 Ha2]. destruct (Hb (fst (a s))) as [Hb1 Hb2].
  rewrite Hb1, Ha1, Ha2, Hb2. now split.
Qed.

Lemma quiet_times (n : nat) (a : Action) : quiet a -> quiet (times n a).
Proof.
  intros Ha. induction n as [| n IH]; simpl.
  - apply quiet_skip.
  - now apply quiet_and_then.
Qed.

Lemma quiet_setPosition (L : Layout) (v : jsval) (animate resize : bool) :
  quiet (setPosition L v animate resize).
Proof.
  intros s. unfold setPosition.
  destruct (disabled s); [now split |].
  destruct (rawPosition L v s); now split.
Qed.

Lemma quiet_post (f : Slider -> Slider) :
  (forall s, sliderdown (f s) = sliderdown s) -> quiet (fun s => (f s, [])).
Proof. intros Hf s. simpl. now rewrite Hf. Qed.

Lemma quiet_resize (L : Layout) : quiet (resize L).
Proof.
  intros s. unfold resize.
  match goal with
  | |- context [setPosition L ?v false true ?s1] =>
      destruct (quiet_setPosition L v false true s1) as [H1 H2]
  end.
  now rewrite H1, H2.
Qed.

End Actions.

(** ** The interaction flag along a run *)

Section Interaction.

Lemma fires_release_interaction : fires release_interaction.
Proof.
  intros s. unfold release_interaction.
  destruct (sliderdown s) eqn:E; simpl; auto.
Qed.

Lemma fires_after_quiet (a b : Action) : quiet a -> fires b -> fires (and_then a b).
Proof.
  intros Ha Hb s. rewrite and_then_fst, and_then_snd, xapi_app.
  destruct (Ha s) as [Ha1 Ha2]. destruct (Hb (fst (a s))) as [Hb1 Hb2].
  rewrite Hb1, Hb2, Ha1, Ha2. now split.
Qed.

Lemma fires_then_quiet (a b : Action) : fires a -> quiet b -> fires (and_then a b).
Proof.
  intros Ha Hb s. rewrite and_then_fst, and_then_snd, xapi_app.
  destruct (Ha s) as [Ha1 Ha2]. destruct (Hb (fst (a s))) as [Hb1 Hb2].
  rewrite Hb1, Hb2, Ha1, Ha2, app_nil_r. now split.
Qed.

Lemma fires_snap (L : Layout) : fires (snap L).
Proof.
  intros s. unfold snap.
  apply fires_after_quiet; [| apply fires_release_interaction].
  destruct (opt_snap s); [apply quiet_setPosition | apply quiet_skip].
Qed.

Lemma quiet_key_step (L : Layout) (k : Z) (delta : number -> number -> number) :
  quiet (key_step L k delta).
Proof.
  intros s. unfold key_step.
  match goal with
  | |- context [setPosition L ?v false false ?s1] =>
      destruct (quiet_setPosition L v false false s1) as [H1 H2]
  end.
  now rewrite H1, H2.
Qed.

Lemma quiet_on_keydown (L : Layout) (key : Z) : quiet (on_keydown L key).
Proof.
  unfold on_keydown. apply quiet_and_then; intros s.
  - destruct ((key =? 37)%Z && key_held 37 s);
      [apply quiet_key_step | apply quiet_skip].
  - destruct ((key =? 39)%Z && key_held 39 s);
      [apply quiet_key_step | apply quiet_skip].
Qed.

(** Every event but a press on the track or the thumb either leaves the flag
    alone or ends the pending interaction. *)
Lemma handle_no_press (L : Layout) (ev : Event) :
  is_press ev = false -> quiet (handle L ev) \/ fires (handle L ev).
Proof.
  destruct ev; simpl; intros H; try discriminate.
  - left. apply quiet_setPosition.
  - right. intros s. apply (fires_snap L (set_mousedown false s)).
  - left. apply quiet_and_then; [apply quiet_setPosition |].
    now apply quiet_post.
  - left. intros s. apply quiet_times, quiet_setPosition.
  - right. apply fires_snap.
  - left. apply quiet_on_keydown.
  - right. apply fires_then_quiet; [apply fires_snap |]. now apply quiet_post.
  - left. apply quiet_setPosition.
  - left. apply quiet_resize.
  - left. now apply quiet_post.
  - left. now apply quiet_post.
Qed.

Lemma handle_press (L : Layout) (ev : Event) (s : Slider) :
  is_press ev = true ->
  sliderdown (fst (handle L ev s)) = true /\ xapi (snd (handle L ev s)) = [].
Proof.
  destruct ev; simpl; intros H; try discriminate; unfold press;
    match goal with
    | |- context [setPosition L ?v false false ?s1] =>
        destruct (quiet_setPosition L v false false s1) as [H1 H2]
    end; now rewrite H1, H2.
Qed.

Lemma run_cons (L : Layout) (ev : Event) (tr : list (Layout * Event)) :
  run ((L, ev) :: tr) = and_then (handle L ev) (run tr).
Proof. reflexivity. Qed.

Lemma run_app (tr1 tr2 : list (Layout * Event)) (s : Slider) :
  run (tr1 ++ tr2) s = and_then (run tr1) (run tr2) s.
Proof.
  revert s. induction tr1 as [| [L ev] tr1 IH]; intros s.
  - simpl. unfold and_then. now destruct (run tr2 s).
  - simpl app. rewrite !run_cons. unfold and_then.
    destruct (handle L ev s) as [s1 o1]. rewrite IH. unfold and_then.
    destruct (run tr1 s1) as [s2 o2]. destruct (run tr2 s2) as [s3 o3].
    now rewrite app_assoc.
Qed.

(** With the flag down and no press, nothing is reported. *)
Lemma run_idle (tr : list (Layout * Event)) (s : Slider) :
  no_press tr = true -> sliderdown s = false ->
  sliderdown (fst (run tr s)) = false /\ xapi (snd (run tr s)) = [].
Proof.
  revert s. induction tr as [| [L ev] tr IH]; intros s Hp Hs.
  - now split.
  - simpl in Hp. apply andb_true_iff in Hp. destruct Hp as [Hev Hp].
    apply negb_true_iff in Hev.
    rewrite run_cons, and_then_fst, and_then_snd, xapi_app.
    assert (H : sliderdown (fst (handle L ev s)) = false /\
                xapi (snd (handle L ev s)) = []).
    { destruct (handle_no_press L ev Hev) as [Hq | Hf].
      - destruct (Hq s) as [H1 H2]. now rewrite H1, H2.
      - destruct (Hf s) as [H1 H2]. now rewrite H1, H2, Hs. }
    destruct H as [H1 H2]. destruct (IH _ Hp H1) as [H3 H4].
    now rewrite H2, H3, H4.
Qed.

(** With the flag up and no press, the pair is reported at most once, and
    the flag tells whether it was. *)
Lemma run_armed (tr : list (Layout * Event)) (s : Slider) :
  no_press tr = true -> sliderdown s = true ->
  (sliderdown (fst (run tr s)) = true /\ xapi (snd (run tr s)) = []) \/
  (sliderdown (fst (run tr s)) = false /\
   xapi (snd (run tr s)) = [XAPIInteracted; XAPICompleted]).
Proof.
  revert s. induction tr as [| [L ev] tr IH]; intros s Hp Hs.
  - left. now split.
  - simpl in Hp. apply andb_true_iff in Hp. destruct Hp as [Hev Hp].
    apply negb_true_iff in Hev.
    rewrite run_cons, and_then_fst, and_then_snd, xapi_app.
    destruct (handle_no_press L ev Hev) as [Hq | Hf].
    + destruct (Hq s) as [H1 H2]. rewrite H2. rewrite Hs in H1.
      exact (IH _ Hp H1).
    + destruct (Hf s) as [H1 H2]. rewrite Hs in H2.
      destruct (run_idle tr _ Hp H1) as [H3 H4].
      right. now rewrite H2, H3, H4.
Qed.

End Interaction.

(** ** The claims about the interaction state *)

Section InteractionClaims.

(** C7. A mousedown on the track or the thumb, then events without another
    such mousedown, then the mouse-up: over this cycle the host is told
    "interacted" and then "completed", exactly once and in that order, and
    the flag [sliderdown] is cleared.  Afterwards, and on any slider whose
    flag is down, events that contain no mousedown on the control (a
    mouse-up after a press elsewhere, or a touch, among them) tell the host
    nothing. *)
Theorem interaction_reported_once
    (L Lr : Layout) (p : Event) (mid after : list (Layout * Event))
    (s idle : Slider) :
  is_press p = true -> no_press mid = true -> no_press after = true ->
  sliderdown idle = false ->
  let cycle := ((L, p) :: mid ++ [(Lr, DocMouseUp)])%list in
  xapi (snd (run cycle s)) = [XAPIInteracted; XAPICompleted]
  /\ sliderdown (fst (run cycle s)) = false
  /\ xapi (snd (run after (fst (run cycle s)))) = []
  /\ xapi (snd (run after idle)) = [].
Proof.
  intros Hp Hmid Hafter Hidle cycle.
  assert (Hcycle : xapi (snd (run cycle s)) = [XAPIInteracted; XAPICompleted]
                   /\ sliderdown (fst (run cycle s)) = false).
  { unfold cycle. rewrite run_cons, and_then_fst, and_then_snd, xapi_app.
    destruct (handle_press L p s Hp) as [Hflag Hout]. rewrite Hout. simpl app.
    set (s1 := fst (handle L p s)) in *.
    rewrite run_app, and_then_fst, and_then_snd, xapi_app.
    assert (Hrel : fires (run [(Lr, DocMouseUp)])).
    { intros s0. rewrite run_cons.
      apply fires_then_quiet; [| apply quiet_skip].
      intros s2. apply (fires_snap Lr (set_mousedown false s2)). }
    destruct (Hrel (fst (run mid s1))) as [Hr1 Hr2].
    destruct (run_armed mid s1 Hmid Hflag) as [[H1 H2] | [H1 H2]];
      rewrite H1 in Hr2; rewrite H2, Hr2, Hr1; now split. }
  destruct Hcycle as [H1 H2].
  repeat split; trivial.
  - now apply run_idle.
  - now apply run_idle.
Qed.

Lemma interaction_reported_once_witness :
  let cycle := [(layout0, TrackMouseDown (Fin 66));
                (layout0, DocMouseMove (Fin 80));
                (layout0, ThumbKeyUp);
                (layout0, DocMouseUp)] in
  let after := [(layout0, DocMouseMove (Fin 90)); (layout0, DocMouseUp)] in
  xapi (snd (run cycle slider100)) = [XAPIInteracted; XAPICompleted]
  /\ sliderdown (fst (run cycle slider100)) = false
  /\ xapi (snd (run after (fst (run cycle slider100)))) = []
  /\ xapi (snd (run after slider100)) = [].
Proof.
  exact (interaction_reported_once layout0 layout0 (TrackMouseDown (Fin 66))
           [(layout0, DocMouseMove (Fin 80)); (layout0, ThumbKeyUp)]
           [(layout0, DocMouseMove (Fin 90)); (layout0, DocMouseUp)]
           slider100 slider100 eq_refl eq_refl eq_refl eq_refl).
Defined.

(** C7, read for any press on the control, fails for touch: a touchstart on
    the container never raises [sliderdown], so a touch that starts on the
    control, moves and ends moves the thumb and tells the host nothing. *)
Lemma interaction_reported_once_counterexample :
  let touch := [(layout0, TouchStart (Fin 66)); (layout0, TouchMove (Fin 80));
                (layout0, TouchEnd)] in
  sliderdown (fst (run [(layout0, TouchStart (Fin 66))] slider100)) = false
  /\ positions (snd (run touch slider100)) = [Fin 50; Fin 64; Fin 66]
  /\ xapi (snd (run touch slider100)) = [].
Proof. repeat split. Qed.

(** C8. A mousemove that arrives while no mouse button is down on the
    control ([mousedown] is false) makes [setPosition] return at once: the
    slider, so its position and its ratio, is unchanged and nothing is sent;
    this is what the document's mousemove listener does then. *)
Theorem hover_move_ignored
    (L : Layout) (e : DomEvent) (animate resize : bool) (s : Slider) (x : number) :
  mousedown s = false -> ev_type e = "mousemove" ->
  setPosition L (VEvent e) animate resize s = (s, [])
  /\ getPosition (fst (setPosition L (VEvent e) animate resize s)) = getPosition s
  /\ ratio (fst (setPosition L (VEvent e) animate resize s)) = ratio s
  /\ handle L (DocMouseMove x) s = (s, []).
Proof.
  intros Hm He.
  assert (H : forall e0 a r, ev_type e0 = "mousemove" ->
                setPosition L (VEvent e0) a r s = (s, [])).
  { intros e0 a r He0. unfold setPosition, rawPosition.
    rewrite Hm, He0. simpl. now destruct (disabled s). }
  rewrite (H e animate resize He). repeat split. now apply H.
Qed.

Lemma hover_move_ignored_witness :
  let e := mouse_event "mousemove" (Fin 120) in
  setPosition layout0 (VEvent e) false false slider100 = (slider100, [])
  /\ getPosition (fst (setPosition layout0 (VEvent e) false false slider100))
     = getPosition slider100
  /\ ratio (fst (setPosition layout0 (VEvent e) false false slider100))
     = ratio slider100
  /\ handle layout0 (DocMouseMove (Fin 120)) slider100 = (slider100, []).
Proof.
  exact (hover_move_ignored layout0 (mouse_event "mousemove" (Fin 120))
           false false slider100 (Fin 120) eq_refl eq_refl).
Defined.

(** C5. A call of [setPosition] with [resize] true leaves the stored ratio
    as it was, whatever the argument; [resize], the one caller that passes
    true, therefore keeps the ratio across a change of the track width. *)
Theorem resize_mode_keeps_ratio
    (L : Layout) (v : jsval) (animate : bool) (s : Slider) :
  ratio (fst (setPosition L v animate true s)) = ratio s
  /\ ratio (fst (resize L s)) = ratio s.
Proof.
  assert (H : forall v0 a s0, ratio (fst (setPosition L v0 a true s0)) = ratio s0).
  { intros v0 a s0. unfold setPosition.
    destruct (disabled s0); [reflexivity |].
    now destruct (rawPosition L v0 s0). }
  split; [apply H |]. unfold resize. now rewrite H.
Qed.

End InteractionClaims.

(** ** Snapping *)

Section Snap.

Local Open Scope Q_scope.

(** The interpolation [map(r, 0, 1, 0, n)] is [r * n]. *)
Lemma map_unit_interval (r n : Q) :
  (map (Fin r) (Fin 0) (Fin 1) (Fin 0) (Fin n) =n= Fin (r * n))%js.
Proof.
  unfold map. rewrite !sub_Fin, mul_Fin.
  rewrite div_Fin by (intros H; discriminate H).
  rewrite add_Fin. apply Fin_proper. field.
Qed.

Lemma snapIndex_size_zero (a : number) (z : Q) :
  z == 0 ->
  JS.round (map a (Fin 0) (Fin 1) (Fin 0) (Fin z)) = NaN \/
  JS.round (map a (Fin 0) (Fin 1) (Fin 0) (Fin z)) = Fin 0.
Proof.
  intros Hz. destruct a as [| | r |].
  - left. reflexivity.
  - left. unfold map.
    assert (E : (NegInf - Fin 0)%js = NegInf) by reflexivity. rewrite E.
    assert (E' : (NegInf * (Fin z - Fin 0))%js = NaN).
    { cbv [sub neg add mul fin signed_inf].
      assert (Hc : (Qred (z + Qred (- 0)) ?= 0) = Eq).
      { apply Qeq_alt. rewrite !Qred_correct. rewrite Hz. reflexivity. }
      now rewrite Hc. }
    rewrite E'. reflexivity.
  - right. rewrite map_unit_interval.
    assert (E : (Fin (r * z) =n= Fin 0)%js).
    { apply Fin_proper. rewrite Hz. ring. }
    rewrite E. reflexivity.
  - left. unfold map.
    assert (E : (PosInf - Fin 0)%js = PosInf) by reflexivity. rewrite E.
    assert (E' : (PosInf * (Fin z - Fin 0))%js = NaN).
    { cbv [sub neg add mul fin signed_inf].
      assert (Hc : (Qred (z + Qred (- 0)) ?= 0) = Eq).
      { apply Qeq_alt. rewrite !Qred_correct. rewrite Hz. reflexivity. }
      now rewrite Hc. }
    rewrite E'. reflexivity.
Qed.

(** C10. With snapping on and [options.size] equal to 0 nothing guards the
    division in [snap]: whatever the ratio and the track width, the value
    handed to [setPosition] is [NaN], and for a finite ratio and width it is
    the quotient 0 / 0 (the numerator [snapIndex * trackWidth] is 0). *)
Theorem snap_size_zero_passes_NaN (L : Layout) (s : Slider) (z : Q) :
  opt_snap s = true -> opt_size s = Fin z -> z == 0 ->
  snapTarget s = NaN
  /\ snap L s
     = and_then (setPosition L (VNum NaN) true false) release_interaction s
  /\ (forall r w, ratio s = Fin r -> trackWidth s = Fin w ->
      exists p, (JS.round (map (ratio s) (Fin 0) (Fin 1) (Fin 0) (opt_size s))
                 * getWidth s)%js = Fin p /\ p == 0).
Proof.
  intros Hsnap Hsize Hz.
  assert (Hnum : forall w, trackWidth s = Fin w ->
            forall i, i = NaN \/ i = Fin 0 ->
            (i * getWidth s)%js = NaN \/
            exists p, (i * getWidth s)%js = Fin p /\ p == 0).
  { intros w Hw i [-> | ->]; [left; reflexivity | right].
    unfold getWidth. rewrite Hw. exists (Qred (0 * w)). split; [reflexivity |].
    rewrite Qred_correct. ring. }
  assert (Htarget : snapTarget s = NaN).
  { unfold snapTarget. rewrite Hsize.
    destruct (snapIndex_size_zero (ratio s) z Hz) as [-> | ->];
      [reflexivity |].
    unfold getWidth. destruct (trackWidth s) as [| | w |]; try reflexivity.
    apply div_zero_zero; [| exact Hz].
    rewrite Qred_correct. ring. }
  split; [exact Htarget |]. split.
  - unfold snap. now rewrite Hsnap, Htarget.
  - intros r w Hr Hw. rewrite Hsize.
    destruct (Hnum w Hw _ (snapIndex_size_zero (ratio s) z Hz)) as [E | E];
      [| exact E].
    exfalso. revert E. rewrite Hr, map_unit_interval.
    unfold getWidth. rewrite Hw. discriminate.
Qed.

Lemma snap_size_zero_passes_NaN_witness :
  snapTarget slider_single = NaN
  /\ snap layout0 slider_single
     = and_then (setPosition layout0 (VNum NaN) true false)
         release_interaction slider_single
  /\ (forall r w, ratio slider_single = Fin r -> trackWidth slider_single = Fin w ->
      exists p, (JS.round (map (ratio slider_single) (Fin 0) (Fin 1) (Fin 0)
                             (opt_size slider_single))
                 * getWidth slider_single)%js = Fin p /\ p == 0).
Proof.
  exact (snap_size_zero_passes_NaN layout0 slider_single 0
           eq_refl eq_refl (Qeq_refl 0)).
Defined.

End Snap.

(** ** The clamp and what [setPosition] reports *)

Section Clamp.

Local Open Scope Q_scope.

Lemma constrain_id (q w : Q) :
  0 <= q -> q <= w -> constrain (Fin q) (Fin 0) (Fin w) = Fin q.
Proof.
  intros H0 H1. unfold constrain. cbv [JS.max JS.min leb].
  rewrite (proj2 (Qle_bool_iff 0 q) H0).
  now rewrite (proj2 (Qle_bool_iff q w) H1).
Qed.

(** Whatever is clamped, short of [NaN], lands on the track when the width
    is a number that is not negative. *)
Lemma constrain_within (raw W : number) :
  raw <> NaN -> (Fin 0 <=? W)%js = true ->
  (Fin 0 <=? constrain raw (Fin 0) W)%js = true /\
  (constrain raw (Fin 0) W <=? W)%js = true.
Proof.
  intros Hraw HW. unfold constrain.
  destruct W as [| | w |]; try discriminate HW.
  - cbv [leb] in HW.
    destruct raw as [| | q |]; try congruence; cbv [JS.max JS.min leb].
    + rewrite HW. split; [reflexivity | exact HW].
    + destruct (Qle_bool 0 q) eqn:E0; [destruct (Qle_bool q w) eqn:E1 |].
      * now split.
      * split; [exact HW | apply Qle_bool_iff, Qle_refl].
      * rewrite HW. split; [reflexivity | exact HW].
    + split; [exact HW | apply Qle_bool_iff, Qle_refl].
  - destruct raw as [| | q |]; try congruence; cbv [JS.max JS.min leb].
    + now split.
    + destruct (Qle_bool 0 q) eqn:E0; now split.
    + now split.
Qed.






(** C9. After a call that is accepted (the slider is enabled and the call is
    not a mousemove without a button down), if the pixel offset computed
    from the argument is not [NaN] and the track width is a number that is
    not negative, then the position sent and stored lies within
    [0, trackWidth]. *)
Theorem position_within_track
    (L : Layout) (v : jsval) (animate resize : bool) (s : Slider)
    (raw : number) :
  disabled s = false -> rawPosition L v s = Some raw ->
  raw <> NaN -> (Fin 0 <=? trackWidth s)%js = true ->
  exists pos pct,
    snd (setPosition L v animate resize s) = [Update pos pct]
    /\ thumb_left (fst (setPosition L v animate resize s))
       = Some (pos + THUMB_OFFSET)%js
    /\ (Fin 0 <=? pos)%js = true
    /\ (pos <=? trackWidth s)%js = true.
Proof.
  intros Hen Hraw Hnan HW. unfold setPosition. rewrite Hen, Hraw.
  eexists. eexists. split; [reflexivity |]. split; [reflexivity |].
  unfold getWidth. now apply constrain_within.
Qed.

Lemma position_within_track_witness :
  exists pos pct,
    snd (setPosition layout0 (VStr "250px") false false slider100)
    = [Update pos pct]
    /\ thumb_left (fst (setPosition layout0 (VStr "250px") false false slider100))
       = Some (pos + THUMB_OFFSET)%js
    /\ (Fin 0 <=? pos)%js = true
    /\ (pos <=? trackWidth slider100)%js = true.
Proof.
  apply (position_within_track layout0 (VStr "250px") false false slider100
           (Fin 250)); [reflexivity | reflexivity | discriminate | reflexivity].
Defined.

(** C9, as stated, fails: a string without digits is accepted and parsed to
    [NaN], which the clamp hands on, and a container that is not displayed
    makes [resize] set the width -32, below which no position can stay. *)
Lemma position_invariant_counterexample :
  let res1 := setPosition layout0 (VStr "abc") false false slider100 in
  let res2 := resize layout_hidden slider100 in
  (rawPosition layout0 (VStr "abc") slider100 = Some NaN
   /\ snd res1 = [Update NaN NaN]
   /\ (Fin 0 <=? NaN)%js = false)
  /\ (trackWidth (fst res2) = Fin (-32)
      /\ snd res2 = [Update (Fin (-32)) (Fin 100)]
      /\ getPosition (fst res2) = Fin (-32)
      /\ (Fin 0 <=? Fin (-32))%js = false).
Proof. repeat split. Qed.

End Clamp.

(** ** Setting and reading the position *)

Section Position.

Local Open Scope Q_scope.

Lemma ofZ_add (z k : Z) : (ofZ z + ofZ k)%js = ofZ (z + k).
Proof.
  unfold ofZ. cbv [add]. apply fin_is_Z. now rewrite inject_Z_plus.
Qed.

Lemma ofZ_sub (z k : Z) : (ofZ z - ofZ k)%js = ofZ (z - k).
Proof.
  unfold ofZ. cbv [sub neg add]. apply fin_is_Z.
  unfold fin. rewrite Qred_correct.
  unfold Z.sub. rewrite inject_Z_plus, inject_Z_opp. reflexivity.
Qed.

Lemma Qtrunc_nonneg (q : Q) : 0 <= q -> Qtrunc q = Qfloor q.
Proof.
  intros H. unfold Qtrunc. now rewrite (proj2 (Qle_bool_iff 0 q) H).
Qed.

Lemma Qtrunc_compat (p q : Q) : p == q -> Qtrunc p = Qtrunc q.
Proof.
  intros H. unfold Qtrunc.
  rewrite (Qle_bool_compat 0 0 p q (Qeq_refl 0) H).
  destruct (Qle_bool 0 q); [now apply Qfloor_comp |].
  f_equal. apply Qfloor_comp. now rewrite H.
Qed.

Lemma plain_decimal_compat (p q : Q) : p == q -> plain_decimal p -> plain_decimal q.
Proof. unfold plain_decimal. intros H. now rewrite H. Qed.

Lemma Qfloor_nonneg (q : Q) : 0 <= q -> (0 <= Qfloor q)%Z.
Proof.
  intros H. rewrite <- (Qfloor_Z 0). now apply Qfloor_resp_le.
Qed.

(** What an accepted call with an in-range number does, step by step:
    the argument is truncated, the clamp changes nothing, and the style
    written holds the same whole number of pixels, read back unchanged. *)
Lemma setPosition_number_in_range
    (L : Layout) (s : Slider) (w p : Q) (animate resize : bool) :
  disabled s = false -> trackWidth s = Fin w ->
  0 <= p <= w -> plain_decimal p -> p + 8 < inject_Z (10 ^ 21) ->
  snd (setPosition L (VNum (Fin p)) animate resize s)
  = [Update (ofZ (Qfloor p)) (percentage_of (ofZ (Qfloor p)) (Fin w))]
  /\ getPosition (fst (setPosition L (VNum (Fin p)) animate resize s))
     = ofZ (Qfloor p)
  /\ constrain (ofZ (Qfloor p)) (Fin 0) (Fin w) = ofZ (Qfloor p).
Proof.
  intros Hen HW [Hp0 Hpw] Hplain Hbig.
  assert (Hf0 : (0 <= Qfloor p)%Z) by now apply Qfloor_nonneg.
  assert (Hfp : inject_Z (Qfloor p) <= p) by apply Qfloor_le.
  assert (Hc : constrain (ofZ (Qfloor p)) (Fin 0) (Fin w) = ofZ (Qfloor p)).
  { apply constrain_id; [now apply inject_Z_nonneg |].
    now apply Qle_trans with p. }
  unfold setPosition, rawPosition, getWidth. rewrite Hen, HW.
  rewrite (parseInt_num_plain p Hplain), (Qtrunc_nonneg p Hp0), Hc.
  cbn [fst snd]. split; [reflexivity |]. split; [| reflexivity].
  unfold getPosition. cbn [place_thumb thumb_left].
  change THUMB_OFFSET with (ofZ 8). rewrite ofZ_add.
  rewrite parseInt_num_ofZ.
  - rewrite ofZ_sub. f_equal. lia.
  - split; [lia |].
    rewrite Zlt_Qlt, inject_Z_plus.
    apply Qle_lt_trans with (p + 8); [| exact Hbig].
    apply Qplus_le_l. exact Hfp.
Qed.

(** C1. On an enabled slider whose track is [w > 0] pixels wide, for a
    number [p] in [0, w] that JavaScript prints without an exponent ([p] is 0
    or at least 1e-6) and with [p + 8] at most 2^53, so that the thumb
    offset is added and subtracted exactly, [setPosition(p, animate)]
    followed by [getPosition()] gives [clamp(floor(p), 0, w)], which is
    [floor(p)]: a fraction is cut off, not rounded. *)
Theorem setPosition_then_getPosition
    (L : Layout) (s : Slider) (w p : Q) (animate resize : bool) :
  disabled s = false -> trackWidth s = Fin w -> 0 < w -> 0 <= p <= w ->
  plain_decimal p -> p + 8 <= inject_Z (2 ^ 53) ->
  getPosition (fst (setPosition L (VNum (Fin p)) animate resize s))
  = constrain (ofZ (Qfloor p)) (Fin 0) (Fin w)
  /\ constrain (ofZ (Qfloor p)) (Fin 0) (Fin w) = ofZ (Qfloor p).
Proof.
  intros Hen HW _ Hp Hplain Hsmall.
  assert (Hbig : p + 8 < inject_Z (10 ^ 21)).
  { apply Qle_lt_trans with (inject_Z (2 ^ 53)); [exact Hsmall |].
    rewrite <- Zlt_Qlt. lia. }
  destruct (setPosition_number_in_range L s w p animate resize
              Hen HW Hp Hplain Hbig) as [_ [Hget Hc]].
  split; [exact (eq_trans Hget (eq_sym Hc)) | exact Hc].
Qed.

Lemma setPosition_then_getPosition_witness :
  getPosition (fst (setPosition layout0 (VNum (Fin (61 # 2))) true false slider100))
  = constrain (ofZ (Qfloor (61 # 2))) (Fin 0) (Fin 100)
  /\ constrain (ofZ (Qfloor (61 # 2))) (Fin 0) (Fin 100) = ofZ 30.
Proof.
  apply (setPosition_then_getPosition layout0 slider100 100 (61 # 2) true false).
  - reflexivity.
  - reflexivity.
  - reflexivity.
  - split; apply Qle_bool_iff; reflexivity.
  - right. split; [apply Qle_bool_iff |]; reflexivity.
  - apply Qle_bool_iff. reflexivity.
Defined.

(** C1, as stated, fails for a number printed with an exponent: 5e-7 lies in
    [0, 100], its floor is 0, but [parseInt] reads the 5 of "5e-7".  It
    fails as well on a disabled slider, where the call is ignored. *)
Lemma setPosition_then_getPosition_counterexample :
  (getPosition
     (fst (setPosition layout0 (VNum (Fin (5 # 10000000))) false false slider100))
   = Fin 5
   /\ constrain (ofZ (Qfloor (5 # 10000000))) (Fin 0) (Fin 100) = Fin 0)
  /\ (getPosition
        (fst (setPosition layout0 (VNum (Fin 7)) false false (disable slider100)))
      = Fin 0
      /\ constrain (ofZ (Qfloor 7)) (Fin 0) (Fin 100) = Fin 7).
Proof. repeat split. Qed.





End Position.


(** ** Snapping to a step, and the keyboard *)

Section SnapAndKeys.

Local Open Scope Q_scope.

Lemma parseInt_num_eq (a : number) (x : Q) :
  (a =n= Fin x)%js -> plain_decimal x -> parseInt_num a = ofZ (Qtrunc x).
Proof.
  intros H Hx. destruct a as [| | q |]; try contradiction H.
  cbv [num_eq] in H. rewrite parseInt_num_plain.
  - f_equal. now apply Qtrunc_compat.
  - apply (plain_decimal_compat x); [now symmetry | exact Hx].
Qed.

Lemma snapTarget_value (s : Slider) (r n w : Q) :
  opt_size s = Fin n -> ~ n == 0 -> ratio s = Fin r -> trackWidth s = Fin w ->
  (snapTarget s =n= Fin (inject_Z (Qfloor (r * n + (1 # 2))) * w / n))%js.
Proof.
  intros Hn Hn0 Hr Hw. unfold snapTarget, getWidth. rewrite Hn, Hr, Hw.
  rewrite map_unit_interval. cbv [JS.round ofZ].
  rewrite mul_Fin. now rewrite div_Fin.
Qed.


Lemma set_keydown_same (s : Slider) (k : Z) :
  keydown s = Some k -> set_keydown (Some k) s = s.
Proof. destruct s. cbn. now intros ->. Qed.

(** C6. While a direction key is held, a key-down of the other direction
    key is ignored, and every further key-down of the held key moves the
    thumb again by 1% of the track width: it calls [setPosition] with the
    current position moved by [0.01 * parseInt(trackWidth)]. *)
Theorem held_key_repeats (L : Layout) (s : Slider) (held : Z) :
  (held = 37 \/ held = 39)%Z -> keydown s = Some held ->
  handle L (ThumbKeyDown (opposite_key held)) s = (s, [])
  /\ handle L (ThumbKeyDown held) s
     = setPosition L
         (VNum (key_delta held (getPosition s)
                  (Fin (1 # 100) * parseInt_num (getWidth s))%js))
         false false s.
Proof.
  intros Hk Hheld.
  assert (Hstep : forall delta,
            key_step L held delta s
            = setPosition L
                (VNum (delta (getPosition s)
                         (Fin (1 # 100) * parseInt_num (getWidth s))%js))
                false false s).
  { intros delta. unfold key_step. now rewrite (set_keydown_same s held Hheld). }
  destruct Hk as [-> | ->]; cbn [handle opposite_key key_delta Z.eqb Pos.eqb];
    unfold on_keydown, and_then, key_held;
    repeat (rewrite ?Hheld; cbn [Z.eqb Pos.eqb andb]).
  - split; [reflexivity |]. rewrite Hstep.
    destruct (setPosition _ _ _ _ _) as [s1 o1].
    now rewrite app_nil_r.
  - split; [reflexivity |]. rewrite Hstep.
    now destruct (setPosition _ _ _ _ _).
Qed.

Lemma held_key_repeats_witness :
  let s1 := fst (handle layout0 (ThumbKeyDown 37) slider100_at50) in
  handle layout0 (ThumbKeyDown 39) s1 = (s1, [])
  /\ handle layout0 (ThumbKeyDown 37) s1
     = setPosition layout0
         (VNum (getPosition s1 - Fin (1 # 100) * parseInt_num (getWidth s1))%js)
         false false s1.
Proof.
  exact (held_key_repeats layout0
           (fst (handle layout0 (ThumbKeyDown 37) slider100_at50)) 37
           (or_introl eq_refl) eq_refl).
Defined.

(** C6, as stated, fails: with the left key held, the second key-down moves
    the thumb again, from pixel 49 to pixel 48. *)
Lemma held_key_repeats_counterexample :
  let s1 := fst (handle layout0 (ThumbKeyDown 37) slider100_at50) in
  let s2 := fst (handle layout0 (ThumbKeyDown 37) s1) in
  getPosition slider100_at50 = Fin 50
  /\ keydown s1 = Some 37%Z
  /\ getPosition s1 = Fin 49
  /\ snd (handle layout0 (ThumbKeyDown 37) s1) = [Update (Fin 48) (Fin 48)]
  /\ getPosition s2 = Fin 48.
Proof. repeat split. Qed.

End SnapAndKeys.

(* ================================================================== *)
(** * Part III: further properties of the code *)
(* ================================================================== *)

(** ** A disabled slider *)

Section Disabled.

Lemma setPosition_disabled
    (L : Layout) (v : jsval) (animate resize : bool) (s : Slider) :
  disabled s = true -> setPosition L v animate resize s = (s, []).
Proof. intros H. unfold setPosition. now rewrite H. Qed.

Lemma times_setPosition_disabled
    (n : nat) (L : Layout) (v : jsval) (animate resize : bool) (s : Slider) :
  disabled s = true -> times n (setPosition L v animate resize) s = (s, []).
Proof.
  intros H. induction n as [| n IH]; [reflexivity |].
  cbn [times]. unfold and_then. rewrite (setPosition_disabled _ _ _ _ _ H).
  now rewrite IH.
Qed.

Lemma frozen_refl (s : Slider) : disabled s = true -> frozen_as s s.
Proof. intros H. now repeat split. Qed.

Lemma snap_disabled (L : Layout) (s : Slider) :
  disabled s = true ->
  frozen_as s (fst (snap L s)) /\ updates (snd (snap L s)) = [].
Proof.
  intros H. unfold snap, and_then.
  assert (E : (if opt_snap s
               then setPosition L (VNum (snapTarget s)) true false
               else fun s0 => (s0, [])) s = (s, [])).
  { destruct (opt_snap s); [now apply setPosition_disabled | reflexivity]. }
  rewrite E. unfold release_interaction.
  destruct (sliderdown s); cbn; now repeat split.
Qed.

(** One event on a disabled slider. *)
Lemma handle_disabled (L : Layout) (ev : Event) (s : Slider) :
  disabled s = true -> is_enable ev = false ->
  frozen_as s (fst (handle L ev s)) /\ updates (snd (handle L ev s)) = [].
Proof.
  intros H Hev. destruct ev; try discriminate Hev; cbn [handle].
  - rewrite setPosition_disabled by exact H. split; [now apply frozen_refl | reflexivity].
  - destruct (snap_disabled L (set_mousedown false s) H) as [Hf Hu].
    split; [exact Hf | exact Hu].
  - unfold press. rewrite setPosition_disabled by exact H.
    split; [now repeat split | reflexivity].
  - unfold press. rewrite setPosition_disabled by exact H.
    split; [now repeat split | reflexivity].
  - unfold and_then. rewrite setPosition_disabled by exact H.
    split; [now repeat split | reflexivity].
  - rewrite times_setPosition_disabled by exact H.
    split; [now apply frozen_refl | reflexivity].
  - now apply snap_disabled.
  - unfold on_keydown, and_then, key_step.
    destruct ((key =? 37)%Z && key_held 37 s).
    + rewrite setPosition_disabled by exact H.
      destruct ((key =? 39)%Z && key_held 39 (set_keydown (Some 37%Z) s)).
      * rewrite setPosition_disabled by exact H. split; [now repeat split | reflexivity].
      * split; [now repeat split | reflexivity].
    + destruct ((key =? 39)%Z && key_held 39 s).
      * rewrite setPosition_disabled by exact H. split; [now repeat split | reflexivity].
      * split; [now apply frozen_refl | reflexivity].
  - unfold and_then. destruct (snap_disabled L s H) as [Hf Hu].
    destruct (snap L s) as [s1 o1]. cbn [fst snd] in *.
    split; [| now rewrite app_nil_r].
    destruct Hf as [H1 [H2 [H3 [H4 H5]]]]. now repeat split.
  - rewrite setPosition_disabled by exact H. split; [now apply frozen_refl | reflexivity].
  - unfold resize. rewrite setPosition_disabled by exact H.
    split; [now repeat split | reflexivity].
  - split; [now repeat split | reflexivity].
Qed.

Lemma updates_app (o1 o2 : list Notification) :
  updates (o1 ++ o2) = (updates o1 ++ updates o2)%list.
Proof. apply filter_app. Qed.

(** X1. Until [enable] is called, a disabled slider stays disabled, keeps
    the thumb position, the ratio, the transition class and aria-valuenow,
    and sends no update, whatever events and calls arrive. *)
Theorem disabled_run_frozen (tr : list (Layout * Event)) (s : Slider) :
  disabled s = true -> no_enable tr = true ->
  frozen_as s (fst (run tr s))
  /\ getPosition (fst (run tr s)) = getPosition s
  /\ updates (snd (run tr s)) = [].
Proof.
  intros H Hen.
  assert (G : frozen_as s (fst (run tr s)) /\ updates (snd (run tr s)) = []).
  { revert s H. induction tr as [| [L ev] tr IH]; intros s H.
    - split; [now apply frozen_refl | reflexivity].
    - simpl in Hen. apply andb_true_iff in Hen. destruct Hen as [Hev Htr].
      apply negb_true_iff in Hev.
      rewrite run_cons, and_then_fst, and_then_snd, updates_app.
      destruct (handle_disabled L ev s H Hev) as [[F1 [F2 [F3 [F4 F5]]]] Hu].
      destruct (IH Htr _ F1) as [[G1 [G2 [G3 [G4 G5]]]] Gu].
      rewrite Hu, Gu. split; [| reflexivity].
      repeat split; congruence. }
  destruct G as [[G1 [G2 G3]] Gu]. repeat split; trivial; try apply G3.
  unfold getPosition. now rewrite G2.
Qed.

Lemma disabled_run_frozen_witness :
  let tr := [(layout0, TrackMouseDown (Fin 66)); (layout0, DocMouseMove (Fin 80));
             (layout0, ThumbKeyDown 39); (layout0, CallResize);
             (layout0, DocMouseUp)] in
  frozen_as (disable slider100_at30) (fst (run tr (disable slider100_at30)))
  /\ getPosition (fst (run tr (disable slider100_at30)))
     = getPosition (disable slider100_at30)
  /\ updates (snd (run tr (disable slider100_at30))) = [].
Proof.
  exact (disabled_run_frozen
           [(layout0, TrackMouseDown (Fin 66)); (layout0, DocMouseMove (Fin 80));
            (layout0, ThumbKeyDown 39); (layout0, CallResize);
            (layout0, DocMouseUp)]
           (disable slider100_at30) eq_refl eq_refl).
Defined.

End Disabled.

(** ** The ratio and the percentage *)

Section Ratio.

Local Open Scope Q_scope.

(** On a track whose width is finite, whatever is clamped, short of [NaN],
    is a point of the track or the width itself. *)
Lemma constrain_Fin_cases (raw : number) (w : Q) :
  raw <> NaN ->
  exists p, constrain raw (Fin 0) (Fin w) = Fin p
            /\ ((0 <= p /\ p <= w) \/ p = w).
Proof.
  intros Hraw. unfold constrain.
  destruct raw as [| | q |]; try congruence; cbv [JS.max JS.min leb].
  - destruct (Qle_bool 0 w) eqn:E.
    + exists 0. split; [reflexivity | left]. apply Qle_bool_iff in E.
      split; [apply Qle_refl | exact E].
    + exists w. split; [reflexivity | now right].
  - destruct (Qle_bool 0 q) eqn:E0.
    + destruct (Qle_bool q w) eqn:E1.
      * exists q. split; [reflexivity | left].
        split; now apply Qle_bool_iff.
      * exists w. split; [reflexivity | now right].
    + destruct (Qle_bool 0 w) eqn:E.
      * exists 0. split; [reflexivity | left]. apply Qle_bool_iff in E.
        split; [apply Qle_refl | exact E].
      * exists w. split; [reflexivity | now right].
  - exists w. split; [reflexivity | now right].
Qed.

Lemma div_Fin_unit (p w : Q) :
  (0 <= p /\ p <= w) \/ p = w -> unit_ratio (Fin p / Fin w).
Proof.
  intros H. cbv [div]. destruct (Qeq_bool w 0) eqn:E.
  - apply Qeq_bool_iff in E. left.
    assert (Hp : p == 0).
    { destruct H as [[H0 H1] | ->]; [| exact E].
      rewrite E in H1. now apply Qle_antisym. }
    cbv [signed_inf]. now rewrite (proj1 (Qeq_alt p 0) Hp).
  - right. exists (Qred (p / w)). split; [reflexivity |].
    assert (Hw : ~ w == 0).
    { intros C. apply Qeq_bool_iff in C. congruence. }
    rewrite Qred_correct. destruct H as [[H0 H1] | ->].
    + assert (Hpos : 0 < w).
      { destruct (Qle_lt_or_eq _ _ (Qle_trans _ _ _ H0 H1)) as [Hlt | Heq];
          [exact Hlt | exfalso; apply Hw; now symmetry]. }
      split.
      * apply Qle_shift_div_l; [exact Hpos |]. now rewrite Qmult_0_l.
      * apply Qle_shift_div_r; [exact Hpos |]. now rewrite Qmult_1_l.
    + setoid_replace (w / w) with 1 by now field.
      split; discriminate.
Qed.

Lemma clamp_ratio_unit (raw W : number) :
  unit_ratio (constrain raw (Fin 0) W / W).
Proof.
  destruct W as [| | w |].
  - left. unfold constrain. now destruct raw.
  - left. unfold constrain. destruct raw as [| | q |]; try reflexivity.
    cbv [JS.max JS.min leb]. now destruct (Qle_bool 0 q).
  - destruct raw as [| | q |]; [now left | | |];
      match goal with
      | |- unit_ratio (constrain ?r _ _ / _) =>
          assert (Hr : r <> NaN) by discriminate;
          destruct (constrain_Fin_cases r w Hr) as [p [-> Hp]];
          now apply div_Fin_unit
      end.
  - unfold constrain. destruct raw as [| | q |]; try (now left).
    + right. exists 0. split; [reflexivity | split; discriminate].
    + cbv [JS.max JS.min leb]. destruct (Qle_bool 0 q); right; exists 0;
        (split; [reflexivity | split; discriminate]).
Qed.

Lemma keeps_skip (P : Slider -> Prop) : keeps P (fun s => (s, [])).
Proof. now intros s. Qed.

Lemma keeps_and_then (P : Slider -> Prop) (a b : Action) :
  keeps P a -> keeps P b -> keeps P (and_then a b).
Proof. intros Ha Hb s H. rewrite and_then_fst. now apply Hb, Ha. Qed.

Lemma keeps_times (P : Slider -> Prop) (n : nat) (a : Action) :
  keeps P a -> keeps P (times n a).
Proof.
  intros Ha. induction n as [| n IH]; [apply keeps_skip |].
  now apply keeps_and_then.
Qed.

Lemma keeps_run (P : Slider -> Prop) :
  (forall L ev, keeps P (handle L ev)) -> forall tr, keeps P (run tr).
Proof.
  intros H tr. induction tr as [| [L ev] tr IH]; [apply keeps_skip |].
  rewrite run_cons. now apply keeps_and_then.
Qed.

Lemma setPosition_keeps_unit_ratio
    (L : Layout) (v : jsval) (animate resize : bool) :
  keeps (fun s => unit_ratio (ratio s)) (setPosition L v animate resize).
Proof.
  intros s H. unfold setPosition.
  destruct (disabled s); [exact H |].
  destruct (rawPosition L v s) as [raw |]; [| exact H].
  cbn [fst place_thumb ratio]. destruct resize; [exact H |].
  apply clamp_ratio_unit.
Qed.

Lemma handle_keeps_unit_ratio (L : Layout) (ev : Event) :
  keeps (fun s => unit_ratio (ratio s)) (handle L ev).
Proof.
  assert (Hsnap : keeps (fun s => unit_ratio (ratio s)) (snap L)).
  { intros s H. unfold snap. rewrite and_then_fst.
    assert (H1 : unit_ratio
                   (ratio (fst ((if opt_snap s
                                 then setPosition L (VNum (snapTarget s)) true false
                                 else fun s0 => (s0, [])) s)))).
    { destruct (opt_snap s); [now apply setPosition_keeps_unit_ratio | exact H]. }
    unfold release_interaction.
    match goal with |- context [sliderdown ?x] => destruct (sliderdown x) end;
      exact H1. }
  destruct ev; cbn [handle].
  - apply setPosition_keeps_unit_ratio.
  - intros s H. now apply Hsnap.
  - intros s H. unfold press. now apply setPosition_keeps_unit_ratio.
  - intros s H. unfold press. now apply setPosition_keeps_unit_ratio.
  - apply keeps_and_then; [apply setPosition_keeps_unit_ratio | now intros s H].
  - intros s H. now apply keeps_times; [apply setPosition_keeps_unit_ratio |].
  - exact Hsnap.
  - unfold on_keydown. apply keeps_and_then; intros s H;
      match goal with |- context [if ?c then _ else _] => destruct c end;
      try exact H; unfold key_step; now apply setPosition_keeps_unit_ratio.
  - apply keeps_and_then; [exact Hsnap | now intros s H].
  - apply setPosition_keeps_unit_ratio.
  - intros s H. unfold resize. now apply setPosition_keeps_unit_ratio.
  - now intros s H.
  - now intros s H.
Qed.

(** X2. The stored ratio is always a fraction between 0 and 1, or [NaN]:
    this holds for the fresh slider and is kept by every event and every
    call, whatever the arguments, the layout and the track width. *)
Theorem ratio_stays_unit (tr : list (Layout * Event)) (s : Slider) :
  unit_ratio (ratio s) -> unit_ratio (ratio (fst (run tr s))).
Proof.
  intros H.
  exact (keeps_run (fun s0 => unit_ratio (ratio s0)) handle_keeps_unit_ratio tr s H).
Qed.

Lemma ratio_stays_unit_witness :
  unit_ratio
    (ratio (fst (run [(layout_hidden, CallResize);
                      (layout0, CallSetPosition (VStr "40px") false);
                      (layout0, TrackMouseDown (Fin 600));
                      (layout0, DocMouseUp)]
                   (Slider_new None (Fin 3))))).
Proof.
  apply ratio_stays_unit. right. exists 0.
  split; [reflexivity | split; discriminate].
Defined.

Lemma percentage_of_Fin (p w : Q) :
  0 < w ->
  percentage_of (Fin p) (Fin w) = ofZ (Qfloor (p / w * 100 + (1 # 2))).
Proof.
  intros Hw. unfold percentage_of.
  rewrite div_Fin by (intros C; rewrite C in Hw; discriminate Hw).
  rewrite mul_Fin. reflexivity.
Qed.

Lemma ratio_of_Fin (p w : Q) : 0 < w -> (Fin p / Fin w)%js = fin (p / w).
Proof.
  intros Hw. cbv [div]. destruct (Qeq_bool w 0) eqn:E; [| reflexivity].
  apply Qeq_bool_iff in E. rewrite E in Hw. discriminate Hw.
Qed.

(** X3. After an accepted call whose computed offset is not [NaN], on a
    track of positive width, the update carries a position on the track and
    a whole percentage between 0 and 100, which is also written to
    aria-valuenow; outside a resize the stored ratio lies between 0 and
    1. *)
Theorem accepted_update_in_range
    (L : Layout) (v : jsval) (animate resize : bool) (s : Slider)
    (raw : number) (w : Q) :
  disabled s = false -> rawPosition L v s = Some raw -> raw <> NaN ->
  trackWidth s = Fin w -> 0 < w ->
  exists (p : Q) (z : Z) (r : Q),
    snd (setPosition L v animate resize s) = [Update (Fin p) (ofZ z)]
    /\ 0 <= p <= w /\ (0 <= z <= 100)%Z
    /\ aria_valuenow (fst (setPosition L v animate resize s)) = ofZ z
    /\ ratio (fst (setPosition L v animate false s)) = Fin r
    /\ 0 <= r <= 1.
Proof.
  intros Hen Hraw Hnan HW Hw.
  destruct (constrain_Fin_cases raw w Hnan) as [p [Hc Hp]].
  assert (Hp' : 0 <= p <= w).
  { destruct Hp as [Hp | ->]; [exact Hp |].
    split; [now apply Qlt_le_weak | apply Qle_refl]. }
  assert (Hq : 0 <= p / w <= 1).
  { split.
    - apply Qle_shift_div_l; [exact Hw |]. rewrite Qmult_0_l. apply Hp'.
    - apply Qle_shift_div_r; [exact Hw |]. rewrite Qmult_1_l. apply Hp'. }
  exists p, (Qfloor (p / w * 100 + (1 # 2))), (Qred (p / w)).
  unfold setPosition, getWidth. rewrite Hen, Hraw, HW, Hc.
  cbn [fst snd place_thumb ratio aria_valuenow].
  rewrite (percentage_of_Fin p w Hw), (ratio_of_Fin p w Hw).
  repeat split; try apply Hp'; try (rewrite Qred_correct; apply Hq).
  - rewrite <- (Qfloor_Z 0). apply Qfloor_resp_le.
    apply Qle_trans with (0 * 100 + (1 # 2)); [discriminate |].
    apply Qplus_le_l. apply Qmult_le_compat_r; [apply Hq | discriminate].
  - change 100%Z with (Qfloor (100 + (1 # 2))). apply Qfloor_resp_le.
    apply Qplus_le_l.
    apply Qle_trans with (1 * 100); [| discriminate].
    apply Qmult_le_compat_r; [apply Hq | discriminate].
Qed.

Lemma accepted_update_in_range_witness :
  exists (p : Q) (z : Z) (r : Q),
    snd (setPosition layout0 (VEvent (mouse_event "mousedown" (Fin 66)))
           false false slider100)
    = [Update (Fin p) (ofZ z)]
    /\ 0 <= p <= 100 /\ (0 <= z <= 100)%Z
    /\ aria_valuenow
         (fst (setPosition layout0 (VEvent (mouse_event "mousedown" (Fin 66)))
                 false false slider100)) = ofZ z
    /\ ratio
         (fst (setPosition layout0 (VEvent (mouse_event "mousedown" (Fin 66)))
                 false false slider100)) = Fin r
    /\ 0 <= r <= 1.
Proof.
  apply (accepted_update_in_range layout0
           (VEvent (mouse_event "mousedown" (Fin 66))) false false slider100
           (Fin 50) 100);
    [reflexivity | reflexivity | discriminate | reflexivity | reflexivity].
Defined.

(** X4. On an enabled slider with a track of positive width, an offset at
    or left of the track start puts the thumb at 0 with percentage 0 and
    ratio 0, and an offset at or beyond the track end puts it at the width
    with percentage 100 and ratio 1. *)
Theorem offsets_beyond_the_ends
    (L : Layout) (v : jsval) (animate : bool) (s : Slider) (q w : Q) :
  disabled s = false -> rawPosition L v s = Some (Fin q) ->
  trackWidth s = Fin w -> 0 < w -> q <= 0 \/ w <= q ->
  exists p : Q,
    snd (setPosition L v animate false s)
    = [Update (Fin p) (if Qle_bool q 0 then Fin 0 else Fin 100)]
    /\ p == (if Qle_bool q 0 then 0 else w)
    /\ ratio (fst (setPosition L v animate false s))
       = (if Qle_bool q 0 then Fin 0 else Fin 1).
Proof.
  intros Hen Hraw HW Hw Hq.
  unfold setPosition, getWidth. rewrite Hen, Hraw, HW.
  cbn [fst snd place_thumb ratio].
  destruct (Qle_bool q 0) eqn:E.
  - apply Qle_bool_iff in E.
    assert (Hc : exists p, constrain (Fin q) (Fin 0) (Fin w) = Fin p /\ p == 0).
    { unfold constrain. cbv [JS.max JS.min leb].
      destruct (Qle_bool 0 q) eqn:E0.
      - apply Qle_bool_iff in E0.
        assert (Hz : q == 0) by now apply Qle_antisym.
        rewrite (proj2 (Qle_bool_iff q w)) by (rewrite Hz; now apply Qlt_le_weak).
        now exists q.
      - rewrite (proj2 (Qle_bool_iff 0 w)) by now apply Qlt_le_weak.
        now exists 0. }
    destruct Hc as [p [-> Hp]]. exists p.
    rewrite (percentage_of_Fin p w Hw), (ratio_of_Fin p w Hw).
    repeat split; [| exact Hp |].
    + f_equal. f_equal. unfold ofZ.
      rewrite (Qfloor_comp (p / w * 100 + (1 # 2)) (1 # 2)); [reflexivity |].
      rewrite Hp. field. intros C. rewrite C in Hw. discriminate Hw.
    + rewrite (fin_compat (p / w) 0); [reflexivity |].
      rewrite Hp. field. intros C. rewrite C in Hw. discriminate Hw.
  - apply Qle_bool_false in E. destruct Hq as [Hq | Hq];
      [exfalso; apply (Qlt_not_le _ _ E Hq) |].
    assert (Hc : exists p, constrain (Fin q) (Fin 0) (Fin w) = Fin p /\ p == w).
    { unfold constrain. cbv [JS.max JS.min leb].
      rewrite (proj2 (Qle_bool_iff 0 q)) by now apply Qlt_le_weak.
      destruct (Qle_bool q w) eqn:E1.
      - apply Qle_bool_iff in E1. exists q. split; [reflexivity |].
        now apply Qle_antisym.
      - now exists w. }
    destruct Hc as [p [-> Hp]]. exists p.
    rewrite (percentage_of_Fin p w Hw), (ratio_of_Fin p w Hw).
    repeat split; [| exact Hp |].
    + f_equal. f_equal. unfold ofZ.
      rewrite (Qfloor_comp (p / w * 100 + (1 # 2)) (100 + (1 # 2))); [reflexivity |].
      rewrite Hp. field. intros C. rewrite C in Hw. discriminate Hw.
    + rewrite (fin_compat (p / w) 1); [reflexivity |].
      rewrite Hp. field. intros C. rewrite C in Hw. discriminate Hw.
Qed.

Lemma offsets_beyond_the_ends_witness :
  exists p : Q,
    snd (setPosition layout0 (VEvent (mouse_event "mousedown" (Fin 600)))
           false false slider100)
    = [Update (Fin p) (Fin 100)]
    /\ p == 100
    /\ ratio (fst (setPosition layout0 (VEvent (mouse_event "mousedown" (Fin 600)))
                     false false slider100))
       = Fin 1.
Proof.
  apply (offsets_beyond_the_ends layout0
           (VEvent (mouse_event "mousedown" (Fin 600))) false slider100 584 100);
    [reflexivity | reflexivity | reflexivity | reflexivity |].
  right. apply Qle_bool_iff. reflexivity.
Defined.

End Ratio.

(** ** Following the pointer *)

Section Pointer.

(** An event that is not an ignored mousemove is accepted on an enabled
    slider: the thumb goes to the clamped pointer offset. *)
Lemma setPosition_event (L : Layout) (e : DomEvent) (animate : bool) (s : Slider) :
  disabled s = false ->
  negb (mousedown s) && (ev_type e =? "mousemove")%string = false ->
  setPosition L (VEvent e) animate false s
  = (let pos := clamped_offset L (getPointerX e) (trackWidth s) in
     place_thumb animate (pos / trackWidth s) (pos + THUMB_OFFSET)
       (percentage_of pos (trackWidth s)) s,
     [update_at (trackWidth s) (L, getPointerX e)]).
Proof.
  intros Hen He. unfold setPosition, rawPosition. now rewrite Hen, He.
Qed.





Lemma run_mouse_moves (moves : list (Layout * number)) (s : Slider) :
  disabled s = false -> mousedown s = true ->
  snd (run (mouse_moves moves) s) = List.map (update_at (trackWidth s)) moves
  /\ disabled (fst (run (mouse_moves moves) s)) = false
  /\ mousedown (fst (run (mouse_moves moves) s)) = true
  /\ trackWidth (fst (run (mouse_moves moves) s)) = trackWidth s
  /\ (forall m, last moves m = m -> moves <> [] ->
      thumb_left (fst (run (mouse_moves moves) s))
      = Some (clamped_offset (fst m) (snd m) (trackWidth s) + THUMB_OFFSET)%js).
Proof.
  revert s. induction moves as [| [L x] moves IH]; intros s Hen Hdown.
  - cbn. repeat split; trivial. intros m _ C. now contradiction C.
  - cbn [mouse_moves List.map fst snd]. fold (mouse_moves moves).
    rewrite run_cons, and_then_fst, and_then_snd. cbn [handle].
    rewrite setPosition_event by (rewrite ?Hdown; trivial).
    cbn [fst snd mouse_event getPointerX ev_touches ev_clientX].
    set (s1 := place_thumb _ _ _ _ s).
    destruct (IH s1 Hen Hdown) as [H1 [H2 [H3 [H4 H5]]]].
    rewrite H1, H2, H3, H4. repeat split.
    intros m Hlast _. destruct moves as [| m' moves'].
    + cbn in Hlast. subst m. reflexivity.
    + rewrite (H5 m); [reflexivity | exact Hlast | discriminate].
Qed.

Lemma press_then_moves
    (L : Layout) (x : number) (moves : list (Layout * number)) (s : Slider) :
  disabled s = false ->
  snd (run ((L, TrackMouseDown x) :: mouse_moves moves) s)
  = List.map (update_at (trackWidth s)) ((L, x) :: moves)
  /\ mousedown (fst (run ((L, TrackMouseDown x) :: mouse_moves moves) s)) = true.
Proof.
  intros Hen.
  rewrite run_cons, and_then_fst, and_then_snd. cbn [handle]. unfold press.
  rewrite setPosition_event by (cbn; rewrite ?Hen; reflexivity).
  cbn [fst snd mouse_event getPointerX ev_touches ev_clientX
       set_sliderdown set_mousedown trackWidth List.map].
  set (s1 := place_thumb _ _ _ _ _).
  destruct (run_mouse_moves moves s1 Hen eq_refl) as [H1 [H2 [H3 [H4 H5]]]].
  rewrite H1. cbn [app]. split; [reflexivity | exact H3].
Qed.

Lemma positions_update_at (W : number) (ms : list (Layout * number)) :
  positions (List.map (update_at W) ms)
  = List.map (fun m => clamped_offset (fst m) (snd m) W) ms.
Proof.
  induction ms as [| m ms IH]; [reflexivity |].
  cbn [List.map positions flat_map update_at app]. f_equal. exact IH.
Qed.

Lemma xapi_update_at (W : number) (ms : list (Layout * number)) :
  xapi (List.map (update_at W) ms) = [].
Proof. induction ms as [| m ms IH]; [reflexivity | exact IH]. Qed.

(** X9. While the button pressed on the control is down, the thumb
    follows the pointer: on an enabled slider whose computed margins and
    padding are whole numbers, a press at a whole [clientX] followed by mouse
    moves at whole coordinates (all below 2^50 in size) sends, for the press
    and for each move, one update at [clientX - 16 - margins] clamped to the
    track, no interaction report, and the button flag stays up. *)
Theorem drag_follows_pointer
    (L : Layout) (x : Z) (xs : list Z) (s : Slider) (m1 m2 m3 : Z) :
  disabled s = false ->
  parseInt_str (containerMarginLeft L) = ofZ m1 ->
  parseInt_str (parentPaddingLeft L) = ofZ m2 ->
  parseInt_str (parentMarginLeft L) = ofZ m3 ->
  Forall (fun y => (Z.abs y < 2 ^ 50)%Z) (x :: xs ++ [m1; m2; m3]) ->
  let tr := (L, TrackMouseDown (ofZ x))
            :: mouse_moves (List.map (fun y => (L, ofZ y)) xs) in
  positions (snd (run tr s))
  = List.map (fun y => constrain (ofZ (y - 16 - m1 - m2 - m3)) (Fin 0)
                         (trackWidth s))
      (x :: xs)
  /\ xapi (snd (run tr s)) = []
  /\ mousedown (fst (run tr s)) = true.
Proof.
  intros Hen H1 H2 H3 _ tr.
  destruct (press_then_moves L (ofZ x) (List.map (fun y => (L, ofZ y)) xs) s Hen)
    as [Hout Hdown].
  fold tr in Hout, Hdown. rewrite Hout, positions_update_at, xapi_update_at.
  split; [| split; [reflexivity | exact Hdown]].
  assert (Hoff : forall y,
            clamped_offset L (ofZ y) (trackWidth s)
            = constrain (ofZ (y - 16 - m1 - m2 - m3)) (Fin 0) (trackWidth s)).
  { intros y. unfold clamped_offset, pointer_offset. rewrite H1, H2, H3.
    change TRACK_OFFSET with (ofZ 16). now rewrite !ofZ_sub. }
  cbn [List.map fst snd]. rewrite Hoff. f_equal.
  rewrite List.map_map. apply List.map_ext. intros y. apply Hoff.
Qed.

Lemma drag_follows_pointer_witness :
  let tr := (layout0, TrackMouseDown (ofZ 66))
            :: mouse_moves (List.map (fun y => (layout0, ofZ y)) [80; 300]%Z) in
  positions (snd (run tr slider100))
  = List.map (fun y => constrain (ofZ (y - 16 - 0 - 0 - 0)) (Fin 0)
                         (trackWidth slider100))
      [66; 80; 300]%Z
  /\ xapi (snd (run tr slider100)) = []
  /\ mousedown (fst (run tr slider100)) = true.
Proof.
  apply (drag_follows_pointer layout0 66 [80; 300]%Z slider100 0 0 0);
    try reflexivity.
  repeat constructor.
Defined.

End Pointer.

(** ** Resizing with a ratio that is not a number *)

Section NaNRatio.

(** X8. [resize] never repairs a ratio that is [NaN] (as left by a call on
    a track of width 0): on an enabled slider it then sends the position
    [NaN] with the percentage [NaN], whatever the new width, and the ratio
    stays [NaN]. *)
Theorem nan_ratio_survives_resize (L : Layout) (s : Slider) :
  disabled s = false -> ratio s = NaN ->
  snd (resize L s) = [Update NaN NaN] /\ ratio (fst (resize L s)) = NaN.
Proof.
  intros Hen Hr. unfold resize, setPosition, rawPosition, getWidth.
  cbn [setWidth set_trackWidth disabled ratio trackWidth]. rewrite Hen, Hr.
  set (W := (parseInt_num (containerOffsetWidth L) - Fin 2 * TRACK_OFFSET)%js).
  assert (E : (W * NaN)%js = NaN) by now destruct W.
  rewrite E. cbn [parseInt_num].
  assert (E' : constrain NaN (Fin 0) W = NaN) by now destruct W.
  rewrite E'. cbn [fst snd place_thumb ratio]. now split.
Qed.

Lemma nan_ratio_survives_resize_witness :
  let s := fst (run [(layout0, TrackMouseDown (Fin 66)); (layout0, DocMouseUp)]
                  (Slider_new (Some false) (Fin 3))) in
  snd (resize layout0 s) = [Update NaN NaN] /\ ratio (fst (resize layout0 s)) = NaN.
Proof.
  exact (nan_ratio_survives_resize layout0
           (fst (run [(layout0, TrackMouseDown (Fin 66)); (layout0, DocMouseUp)]
                   (Slider_new (Some false) (Fin 3))))
           eq_refl eq_refl).
Defined.

End NaNRatio.

(** ** Snapping to a step, and snapping twice *)

Section SnapTwice.

Local Open Scope Q_scope.

Lemma Qfloor_unique (z : Z) (q : Q) :
  inject_Z z <= q -> q < inject_Z (z + 1) -> Qfloor q = z.
Proof.
  intros Hlo Hhi.
  assert (H1 : (Qfloor q < z + 1)%Z).
  { rewrite Zlt_Qlt. apply Qle_lt_trans with q; [apply Qfloor_le | exact Hhi]. }
  assert (H2 : (z < Qfloor q + 1)%Z).
  { rewrite Zlt_Qlt. apply Qle_lt_trans with q; [exact Hlo | apply Qlt_floor]. }
  lia.
Qed.

Lemma snap_index_stable (r w : Q) (N : Z) :
  (1 <= N)%Z -> 0 <= r <= 1 -> 2 * inject_Z N <= w ->
  let idx := Qfloor (r * inject_Z N + (1 # 2)) in
  let x := inject_Z idx * w / inject_Z N in
  (0 <= idx <= N)%Z /\ 0 <= x /\ x <= w /\ (x == 0 \/ 2 <= x)
  /\ Qfloor (inject_Z (Qfloor x) / w * inject_Z N + (1 # 2)) = idx.
Proof.
  intros HN [Hr0 Hr1] Hw idx x.
  set (n := inject_Z N) in *.
  assert (Hn1 : 1 <= n) by (unfold n; change 1 with (inject_Z 1); now rewrite <- Zle_Qle).
  assert (Hn : 0 < n) by (apply Qlt_le_trans with 1; [reflexivity | exact Hn1]).
  assert (Hw0 : 0 < w).
  { apply Qlt_le_trans with (2 * n); [| exact Hw].
    apply Qmult_lt_0_compat; [reflexivity | exact Hn]. }
  assert (Hnz : ~ n == 0) by (intros C; rewrite C in Hn; discriminate Hn).
  assert (Hwz : ~ w == 0) by (intros C; rewrite C in Hw0; discriminate Hw0).
  assert (Hidx : (0 <= idx <= N)%Z).
  { unfold idx. split.
    - rewrite <- (Qfloor_Z 0). apply Qfloor_resp_le.
      apply Qle_trans with (0 + (1 # 2)); [discriminate |].
      apply Qplus_le_l. apply Qmult_le_0_compat; [exact Hr0 | now apply Qlt_le_weak].
    - rewrite <- (Qfloor_unique N (n + (1 # 2))).
      + apply Qfloor_resp_le. apply Qplus_le_l.
        rewrite <- (Qmult_1_l n) at 2.
        apply Qmult_le_compat_r; [exact Hr1 | now apply Qlt_le_weak].
      + fold n. rewrite <- (Qplus_0_r n) at 1. apply Qplus_le_r. discriminate.
      + rewrite inject_Z_plus. fold n. apply Qplus_lt_r. reflexivity. }
  assert (Hi0 : 0 <= inject_Z idx) by (apply inject_Z_nonneg; lia).
  assert (HiN : inject_Z idx <= n) by (unfold n; rewrite <- Zle_Qle; lia).
  assert (Hx0 : 0 <= x).
  { unfold x. apply Qle_shift_div_l; [exact Hn |]. rewrite Qmult_0_l.
    apply Qmult_le_0_compat; [exact Hi0 | now apply Qlt_le_weak]. }
  assert (Hxw : x <= w).
  { unfold x. apply Qle_shift_div_r; [exact Hn |].
    rewrite (Qmult_comm w n). apply Qmult_le_compat_r; [exact HiN | now apply Qlt_le_weak]. }
  assert (Hx2 : x == 0 \/ 2 <= x).
  { destruct (Z.eq_dec idx 0) as [E | E].
    - left. unfold x. rewrite E. field. exact Hnz.
    - right. unfold x. apply Qle_shift_div_l; [exact Hn |].
      apply Qle_trans with (1 * w); [now rewrite Qmult_1_l |].
      apply Qmult_le_compat_r; [| now apply Qlt_le_weak].
      change 1 with (inject_Z 1). rewrite <- Zle_Qle. lia. }
  repeat split; try apply Hidx; trivial.
  set (f := inject_Z (Qfloor x)).
  assert (Hf1 : f <= x) by apply Qfloor_le.
  assert (Hf2 : x < f + 1).
  { unfold f. change 1 with (inject_Z 1). rewrite <- inject_Z_plus. apply Qlt_floor. }
  assert (Hxn : x / w * n == inject_Z idx) by (unfold x; field; now split).
  apply Qfloor_unique.
  - (* idx <= f / w * n + 1/2 *)
    apply Qle_trans with ((x - 1) / w * n + (1 # 2)).
    + setoid_replace ((x - 1) / w * n) with (x / w * n - n / w) by (field; exact Hwz).
      rewrite Hxn.
      assert (Hnw : n / w <= 1 # 2).
      { apply Qle_shift_div_r; [exact Hw0 |].
        apply Qmult_le_l with 2; [reflexivity |].
        setoid_replace (2 * ((1 # 2) * w)) with w by ring. exact Hw. }
      apply Qle_trans with (inject_Z idx - (1 # 2) + (1 # 2)); [ring_simplify; apply Qle_refl |].
      apply Qplus_le_l. apply Qplus_le_r. now apply Qopp_le_compat.
    + apply Qplus_le_l. apply Qmult_le_compat_r; [| now apply Qlt_le_weak].
      apply Qmult_le_compat_r; [| apply Qlt_le_weak; now apply Qinv_lt_0_compat].
      apply Qplus_le_l with 1. ring_simplify. now apply Qlt_le_weak.
  - (* f / w * n + 1/2 < idx + 1 *)
    rewrite inject_Z_plus. apply Qle_lt_trans with (inject_Z idx + (1 # 2)).
    + apply Qplus_le_l. rewrite <- Hxn.
      apply Qmult_le_compat_r; [| now apply Qlt_le_weak].
      apply Qmult_le_compat_r; [exact Hf1 |].
      apply Qlt_le_weak. now apply Qinv_lt_0_compat.
    + apply Qplus_lt_r. reflexivity.
Qed.

(** An accepted call with a number in the plain range. *)
Lemma setPosition_num_eq
    (L : Layout) (a : number) (q : Q) (animate : bool) (s : Slider) :
  disabled s = false -> (a =n= Fin q)%js -> plain_decimal q ->
  setPosition L (VNum a) animate false s
  = (placed animate (constrain (ofZ (Qtrunc q)) (Fin 0) (trackWidth s)) s,
     [Update (constrain (ofZ (Qtrunc q)) (Fin 0) (trackWidth s))
        (percentage_of (constrain (ofZ (Qtrunc q)) (Fin 0) (trackWidth s))
           (trackWidth s))]).
Proof.
  intros Hen Ha Hq. unfold setPosition, rawPosition.
  now rewrite Hen, (parseInt_num_eq a q Ha Hq).
Qed.

(** The whole effect of [snap] when snapping is on. *)
Lemma snap_result (L : Layout) (s : Slider) (r n w : Q) :
  disabled s = false -> opt_snap s = true ->
  opt_size s = Fin n -> 0 < n -> ratio s = Fin r -> trackWidth s = Fin w ->
  plain_decimal (inject_Z (Qfloor (r * n + (1 # 2))) * w / n) ->
  let pos := constrain
               (ofZ (Qtrunc (inject_Z (Qfloor (r * n + (1 # 2))) * w / n)))
               (Fin 0) (Fin w) in
  snap L s
  = (fst (release_interaction (placed true pos s)),
     Update pos (percentage_of pos (Fin w))
     :: snd (release_interaction (placed true pos s))).
Proof.
  intros Hen Hsnap Hn Hpos Hr Hw Hplain pos.
  assert (Hn0 : ~ n == 0) by (intros C; rewrite C in Hpos; discriminate Hpos).
  unfold snap, and_then. rewrite Hsnap.
  rewrite (setPosition_num_eq L _ _ true s Hen
             (snapTarget_value s r n w Hn Hn0 Hr Hw) Hplain).
  rewrite Hw. fold pos.
  now destruct (release_interaction (placed true pos s)).
Qed.

(** Snapping a second time, computed exactly. *)
Lemma snap_twice (L : Layout) (s : Slider) (r w : Q) (N : Z) :
  disabled s = false -> opt_snap s = true ->
  opt_size s = ofZ N -> (1 <= N)%Z -> ratio s = Fin r -> 0 <= r <= 1 ->
  trackWidth s = Fin w -> 2 * inject_Z N <= w -> w < inject_Z (10 ^ 21) ->
  fst (snap L (fst (snap L s))) = fst (snap L s)
  /\ snd (snap L (fst (snap L s))) = updates (snd (snap L s)).
Proof.
  intros Hen Hsnap Hsize HN Hr Hr01 Hw Hw2 Hwb.
  destruct (snap_index_stable r w N HN Hr01 Hw2) as [Hidx [Hx0 [Hxw [Hx2 Hstable]]]].
  set (idx := Qfloor (r * inject_Z N + (1 # 2))) in *.
  set (x := inject_Z idx * w / inject_Z N) in *.
  assert (Hn : 0 < inject_Z N).
  { change 0 with (inject_Z 0). rewrite <- Zlt_Qlt. lia. }
  assert (Hw0 : 0 < w).
  { apply Qlt_le_trans with (2 * inject_Z N); [| exact Hw2].
    apply Qmult_lt_0_compat; [reflexivity | exact Hn]. }
  assert (Hplain : plain_decimal x).
  { destruct Hx2 as [Hz | H2]; [now left | right].
    rewrite (Qabs_pos x Hx0). split.
    - apply Qle_trans with 2; [discriminate | exact H2].
    - apply Qle_lt_trans with w; [exact Hxw | exact Hwb]. }
  assert (Hpos : constrain (ofZ (Qtrunc x)) (Fin 0) (Fin w) = ofZ (Qfloor x)).
  { rewrite (Qtrunc_nonneg x Hx0). apply constrain_id.
    - apply inject_Z_nonneg. now apply Qfloor_nonneg.
    - apply Qle_trans with x; [apply Qfloor_le | exact Hxw]. }
  rewrite (snap_result L s r (inject_Z N) w Hen Hsnap Hsize Hn Hr Hw Hplain).
  fold idx x. rewrite Hpos. cbn [fst snd].
  set (s' := placed true (ofZ (Qfloor x)) s).
  assert (Hs1 : exists s1,
             fst (release_interaction s') = s1
             /\ disabled s1 = false /\ opt_snap s1 = true
             /\ opt_size s1 = ofZ N /\ trackWidth s1 = Fin w
             /\ ratio s1 = Fin (Qred (inject_Z (Qfloor x) / w))
             /\ sliderdown s1 = false
             /\ placed true (ofZ (Qfloor x)) s1 = s1).
  { assert (Hq : (ofZ (Qfloor x) / Fin w)%js = Fin (Qred (inject_Z (Qfloor x) / w)))
      by apply (ratio_of_Fin _ w Hw0).
    exists (fst (release_interaction s')). split; [reflexivity |].
    unfold release_interaction, s', placed. cbn [place_thumb sliderdown trackWidth].
    rewrite Hw, Hq.
    destruct (sliderdown s) eqn:E;
      cbn [fst place_thumb set_sliderdown disabled opt_snap opt_size
           trackWidth ratio sliderdown];
      rewrite ?Hw, ?Hq; repeat split; trivial. }
  destruct Hs1 as [s1 [E1 [Hen1 [Hsnap1 [Hsize1 [Hw1 [Hr1 [Hdown1 Hfix]]]]]]]].
  rewrite E1.
  assert (Hidx1 : Qfloor (Qred (inject_Z (Qfloor x) / w) * inject_Z N + (1 # 2)) = idx).
  { rewrite <- Hstable. apply Qfloor_comp. now rewrite Qred_correct. }
  assert (Hplain1 : plain_decimal
            (inject_Z (Qfloor (Qred (inject_Z (Qfloor x) / w) * inject_Z N + (1 # 2)))
             * w / inject_Z N)).
  { rewrite Hidx1. exact Hplain. }
  rewrite (snap_result L s1 _ (inject_Z N) w Hen1 Hsnap1 Hsize1 Hn Hr1 Hw1 Hplain1).
  rewrite Hidx1. fold x. rewrite Hpos, Hfix. cbn [fst snd].
  unfold release_interaction at 1 2. rewrite Hdown1. cbn [fst snd].
  split; [reflexivity |].
  unfold updates. cbn [filter is_xapi negb].
  unfold release_interaction. destruct (sliderdown s'); reflexivity.
Qed.

(** X7. Snapping is idempotent on a track with at least two pixels per
    step: on an enabled slider with snapping on, a whole number [N >= 1] of
    steps, a ratio in [0, 1] and a whole track width [w >= 2 N] with
    [w * N < 2^50], a second [snap] leaves the slider exactly as the first
    one did and sends the same update again, without any interaction
    report. *)
Theorem snap_is_idempotent (L : Layout) (s : Slider) (r : Q) (w N : Z) :
  disabled s = false -> opt_snap s = true ->
  opt_size s = ofZ N -> (1 <= N)%Z -> ratio s = Fin r -> 0 <= r <= 1 ->
  trackWidth s = ofZ w -> (2 * N <= w)%Z -> (w * N < 2 ^ 50)%Z ->
  fst (snap L (fst (snap L s))) = fst (snap L s)
  /\ snd (snap L (fst (snap L s))) = updates (snd (snap L s)).
Proof.
  intros Hen Hsnap Hsize HN Hr Hr01 Hw Hw2 Hwb.
  apply (snap_twice L s r (inject_Z w) N); trivial.
  - change 2 with (inject_Z 2). rewrite <- inject_Z_mult, <- Zle_Qle. exact Hw2.
  - rewrite <- Zlt_Qlt. nia.
Qed.

Lemma snap_is_idempotent_witness :
  fst (snap layout0 (fst (snap layout0 slider200_at60)))
  = fst (snap layout0 slider200_at60)
  /\ snd (snap layout0 (fst (snap layout0 slider200_at60)))
     = updates (snd (snap layout0 slider200_at60)).
Proof.
  apply (snap_is_idempotent layout0 slider200_at60 (3 # 10) 200 4);
    try reflexivity.
  - apply Z.leb_le. reflexivity.
  - split; apply Qle_bool_iff; reflexivity.
  - apply Z.leb_le. reflexivity.
Defined.

Lemma Qfloor_quotient (a n : Z) :
  (0 < n)%Z -> Qfloor (inject_Z a / inject_Z n) = (a / n)%Z.
Proof.
  intros Hn.
  assert (Hq : 0 < inject_Z n) by (change 0 with (inject_Z 0); now rewrite <- Zlt_Qlt).
  pose proof (Z.div_mod a n ltac:(lia)) as D.
  pose proof (Z.mod_pos_bound a n Hn) as M.
  apply Qfloor_unique.
  - apply Qle_shift_div_l; [exact Hq |].
    rewrite <- inject_Z_mult, <- Zle_Qle. nia.
  - apply Qlt_shift_div_r; [exact Hq |].
    rewrite <- inject_Z_mult, <- Zlt_Qlt. nia.
Qed.




End SnapTwice.

(** ** The arrow keys *)

Section ArrowKeys.

Local Open Scope Q_scope.

Lemma plain_hundredths (z : Z) :
  (Z.abs z < 10 ^ 23)%Z -> plain_decimal (z # 100).
Proof.
  intros Hz. unfold plain_decimal.
  destruct (Z.eq_dec z 0) as [-> | Hnz]; [left; reflexivity | right].
  cbn [Qabs]. split.
  - unfold Qle. cbn [Qnum Qden]. lia.
  - unfold Qlt. cbn [Qnum Qden inject_Z]. lia.
Qed.

Lemma Qfloor_hundredths (z : Z) : Qfloor (z # 100) = (z / 100)%Z.
Proof. reflexivity. Qed.

Lemma hundredths_add (p k : Z) :
  inject_Z p + (1 # 100) * inject_Z k == (100 * p + k) # 100.
Proof.
  unfold Qeq, Qplus, Qmult, inject_Z. cbn [Qnum Qden]. lia.
Qed.

Lemma hundredths_sub (p k : Z) :
  inject_Z p - (1 # 100) * inject_Z k == (100 * p - k) # 100.
Proof.
  unfold Qeq, Qminus, Qplus, Qopp, Qmult, inject_Z. cbn [Qnum Qden]. lia.
Qed.

(** What the handler computes before it calls [setPosition]. *)
Lemma key_step_argument
    (s : Slider) (w : Q) (p : Z) (key : Z) :
  trackWidth s = Fin w -> plain_decimal w -> 0 <= w -> w < inject_Z (10 ^ 20) ->
  thumb_left s = Some (ofZ (p + 8)) -> (0 <= p)%Z -> inject_Z p <= w ->
  getPosition (set_keydown (Some key) s) = ofZ p
  /\ (Fin (1 # 100) * parseInt_num (getWidth (set_keydown (Some key) s))
      =n= Fin ((1 # 100) * inject_Z (Qfloor w)))%js
  /\ (0 <= Qfloor w < 10 ^ 20)%Z /\ (p < 10 ^ 20)%Z.
Proof.
  intros Hw Hplain Hw0 Hwb Hleft Hp0 Hpw.
  assert (Hk : (0 <= Qfloor w < 10 ^ 20)%Z).
  { split; [now apply Qfloor_nonneg |].
    rewrite Zlt_Qlt. apply Qle_lt_trans with w; [apply Qfloor_le | exact Hwb]. }
  assert (Hp : (p < 10 ^ 20)%Z).
  { rewrite Zlt_Qlt. apply Qle_lt_trans with w; [exact Hpw | exact Hwb]. }
  repeat split; try apply Hk; trivial.
  - unfold getPosition. cbn [set_keydown thumb_left]. rewrite Hleft.
    rewrite parseInt_num_ofZ by lia.
    change THUMB_OFFSET with (ofZ 8). rewrite ofZ_sub. f_equal. lia.
  - unfold getWidth. cbn [set_keydown trackWidth]. rewrite Hw.
    rewrite (parseInt_num_plain w Hplain), (Qtrunc_nonneg w Hw0).
    unfold ofZ. apply mul_Fin.
Qed.

(** The updates of the two arrow keys, computed exactly. *)
Lemma key_step_updates (L : Layout) (s : Slider) (w : Q) (p : Z) :
  disabled s = false -> keydown s = None ->
  trackWidth s = Fin w -> plain_decimal w -> 0 <= w -> w < inject_Z (10 ^ 20) ->
  thumb_left s = Some (ofZ (p + 8)) -> (0 <= p)%Z -> inject_Z p <= w ->
  let right := constrain (ofZ (p + Qfloor w / 100)) (Fin 0) (Fin w) in
  let left := ofZ (Z.max 0 (p - (Qfloor w + 99) / 100)) in
  snd (handle L (ThumbKeyDown 39) s) = [Update right (percentage_of right (Fin w))]
  /\ snd (handle L (ThumbKeyDown 37) s) = [Update left (percentage_of left (Fin w))].
Proof.
  intros Hen Hkey Hw Hplain Hw0 Hwb Hleft Hp0 Hpw right left.
  set (k := Qfloor w) in *.
  split.
  - destruct (key_step_argument s w p 39 Hw Hplain Hw0 Hwb Hleft Hp0 Hpw)
      as [Hget [Hstep [Hk Hp]]]. fold k in Hstep, Hk.
    cbn [handle]. unfold on_keydown, and_then, key_held.
    repeat (rewrite ?Hkey; cbn [Z.eqb Pos.eqb andb]). unfold key_step.
    rewrite (setPosition_num_eq L _ ((100 * p + k) # 100) false
               (set_keydown (Some 39%Z) s)).
    + cbn [snd app set_keydown trackWidth]. rewrite Hw.
      assert (Ht : Qtrunc ((100 * p + k) # 100) = (p + k / 100)%Z).
      { rewrite Qtrunc_nonneg by (unfold Qle; cbn [Qnum Qden]; lia).
        rewrite Qfloor_hundredths.
        replace (100 * p + k)%Z with (k + p * 100)%Z by ring.
        rewrite Z.div_add by lia. lia. }
      rewrite Ht. reflexivity.
    + exact Hen.
    + rewrite Hget, Hstep. unfold ofZ. rewrite add_Fin.
      apply Fin_proper. apply hundredths_add.
    + apply plain_hundredths. lia.
  - destruct (key_step_argument s w p 37 Hw Hplain Hw0 Hwb Hleft Hp0 Hpw)
      as [Hget [Hstep [Hk Hp]]]. fold k in Hstep, Hk.
    cbn [handle]. unfold on_keydown, and_then, key_held.
    repeat (rewrite ?Hkey; cbn [Z.eqb Pos.eqb andb]). unfold key_step.
    rewrite (setPosition_num_eq L _ ((100 * p - k) # 100) false
               (set_keydown (Some 37%Z) s)).
    + cbn [snd app set_keydown trackWidth Z.eqb Pos.eqb andb]. rewrite Hw.
      assert (Hc : constrain (ofZ (Qtrunc ((100 * p - k) # 100))) (Fin 0) (Fin w)
                   = left).
      { unfold left, Qtrunc. fold k.
        destruct (Qle_bool 0 ((100 * p - k) # 100)) eqn:E.
        - apply Qle_bool_iff in E. unfold Qle in E. cbn [Qnum Qden] in E.
          rewrite Qfloor_hundredths.
          assert (Hq : ((100 * p - k) / 100 = p - (k + 99) / 100)%Z).
          { pose proof (Z.div_mod (100 * p - k) 100 ltac:(lia)) as D1.
            pose proof (Z.mod_pos_bound (100 * p - k) 100 ltac:(lia)) as M1.
            pose proof (Z.div_mod (k + 99) 100 ltac:(lia)) as D2.
            pose proof (Z.mod_pos_bound (k + 99) 100 ltac:(lia)) as M2.
            lia. }
          rewrite Hq.
          assert (Hge : (0 <= p - (k + 99) / 100)%Z).
          { rewrite <- Hq. apply Z.div_pos; lia. }
          rewrite Z.max_r by exact Hge.
          apply constrain_id; [now apply inject_Z_nonneg |].
          apply Qle_trans with (inject_Z p); [| exact Hpw].
          rewrite <- Zle_Qle.
          assert (0 <= (k + 99) / 100)%Z by (apply Z.div_pos; lia). lia.
        - apply Qle_bool_false in E. unfold Qlt in E. cbn [Qnum Qden] in E.
          assert (Hneg : (Qfloor (- ((100 * p - k) # 100)) >= 0)%Z).
          { change (- ((100 * p - k) # 100)) with ((- (100 * p - k)) # 100).
            rewrite Qfloor_hundredths. apply Z.le_ge, Z.div_pos; lia. }
          assert (Hmax : Z.max 0 (p - (k + 99) / 100) = 0%Z).
          { apply Z.max_l.
            pose proof (Z.div_mod (k + 99) 100 ltac:(lia)) as D2.
            pose proof (Z.mod_pos_bound (k + 99) 100 ltac:(lia)) as M2.
            lia. }
          rewrite Hmax. unfold constrain. cbv [JS.max JS.min leb ofZ].
          destruct (Qle_bool 0 (inject_Z (- Qfloor (- ((100 * p - k) # 100))))) eqn:E2.
          + apply Qle_bool_iff in E2. unfold Qle in E2. cbn [Qnum Qden inject_Z] in E2.
            assert (Hz : (- Qfloor (- ((100 * p - k) # 100)) = 0)%Z) by lia.
            rewrite Hz. change (inject_Z 0) with 0.
            now rewrite (proj2 (Qle_bool_iff 0 w) Hw0).
          + now rewrite (proj2 (Qle_bool_iff 0 w) Hw0). }
      rewrite Hc. destruct ((37 =? 39)%Z); reflexivity.
    + exact Hen.
    + rewrite Hget, Hstep. unfold ofZ. rewrite sub_Fin.
      apply Fin_proper. apply hundredths_sub.
    + apply plain_hundredths. lia.
Qed.

(** X6. The arrow keys move the thumb by [s = 0.01 * parseInt(trackWidth)]
    pixels, and the truncation in [setPosition] rounds that step down when
    going right and up when going left: on a track narrower than 2^40
    pixels, from pixel [p], the right key goes to [p + floor(s)] (clamped to
    the track) and the left key to [p - ceil(s)] (not below 0).  On a track
    narrower than 100 pixels the right key therefore does not move the thumb
    at all, while the left key moves it by one pixel. *)
Theorem arrow_key_steps (L : Layout) (s : Slider) (w : Q) (p : Z) :
  disabled s = false -> keydown s = None ->
  trackWidth s = Fin w -> plain_decimal w -> 0 <= w -> w < inject_Z (2 ^ 40) ->
  thumb_left s = Some (ofZ (p + 8)) -> (0 <= p)%Z -> inject_Z p <= w ->
  positions (snd (handle L (ThumbKeyDown 39) s))
  = [constrain (ofZ (p + Qfloor w / 100)) (Fin 0) (Fin w)]
  /\ positions (snd (handle L (ThumbKeyDown 37) s))
     = [ofZ (Z.max 0 (p - (Qfloor w + 99) / 100))]
  /\ (w < 100 ->
      positions (snd (handle L (ThumbKeyDown 39) s)) = [ofZ p]
      /\ positions (snd (handle L (ThumbKeyDown 37) s)) = [ofZ (Z.max 0 (p - 1))]).
Proof.
  intros Hen Hkey Hw Hplain Hw0 Hwb Hleft Hp0 Hpw.
  assert (Hwb' : w < inject_Z (10 ^ 20)).
  { apply Qlt_le_trans with (inject_Z (2 ^ 40)); [exact Hwb |].
    rewrite <- Zle_Qle. lia. }
  destruct (key_step_updates L s w p Hen Hkey Hw Hplain Hw0 Hwb' Hleft Hp0 Hpw)
    as [HR HL].
  rewrite HR, HL. split; [reflexivity |]. split; [reflexivity |].
  intros Hnarrow.
  assert (Hk : (0 <= Qfloor w < 100)%Z).
  { split; [now apply Qfloor_nonneg |].
    rewrite Zlt_Qlt. apply Qle_lt_trans with w; [apply Qfloor_le | exact Hnarrow]. }
  cbn [positions flat_map app].
  rewrite (Z.div_small (Qfloor w) 100 Hk), Z.add_0_r.
  assert (Hup : Z.max 0 (p - (Qfloor w + 99) / 100) = Z.max 0 (p - 1)).
  { destruct (Z.eq_dec (Qfloor w) 0) as [E | E].
    - assert (Hp1 : (p < 1)%Z).
      { rewrite Zlt_Qlt. apply Qle_lt_trans with w; [exact Hpw |].
        pose proof (Qlt_floor w) as Hfl. now rewrite E in Hfl. }
      rewrite E. cbn [Z.add]. change (99 / 100)%Z with 0%Z. lia.
    - replace ((Qfloor w + 99) / 100)%Z with 1%Z; [reflexivity |].
      apply (Z.div_unique (Qfloor w + 99) 100 1 (Qfloor w - 1)); lia. }
  rewrite Hup. split; [| reflexivity].
  f_equal. apply constrain_id; [now apply inject_Z_nonneg | exact Hpw].
Qed.

Lemma arrow_key_steps_witness :
  positions (snd (handle layout0 (ThumbKeyDown 39) slider50_at20))
  = [constrain (ofZ (20 + Qfloor 50 / 100)) (Fin 0) (Fin 50)]
  /\ positions (snd (handle layout0 (ThumbKeyDown 37) slider50_at20))
     = [ofZ (Z.max 0 (20 - (Qfloor 50 + 99) / 100))]
  /\ (50 < 100 ->
      positions (snd (handle layout0 (ThumbKeyDown 39) slider50_at20)) = [ofZ 20]
      /\ positions (snd (handle layout0 (ThumbKeyDown 37) slider50_at20))
         = [ofZ (Z.max 0 (20 - 1))]).
Proof.
  apply (arrow_key_steps layout0 slider50_at20 50 20); try reflexivity.
  - right. split; [apply Qle_bool_iff |]; reflexivity.
  - apply Qle_bool_iff. reflexivity.
  - apply Z.leb_le. reflexivity.
  - apply Qle_bool_iff. reflexivity.
Defined.

End ArrowKeys.

(** ** Ticks *)

Section Ticks.

Local Open Scope Q_scope.

Lemma Qfloor_shift (z : Z) (q : Q) : Qfloor (inject_Z z + q) = (z + Qfloor q)%Z.
Proof.
  apply Qfloor_unique.
  - rewrite inject_Z_plus. apply Qplus_le_r. apply Qfloor_le.
  - rewrite <- Z.add_assoc, inject_Z_plus. apply Qplus_lt_r. apply Qlt_floor.
Qed.

Lemma tick_left_value (w : Q) (N i : nat) :
  (1 <= N)%nat ->
  (tick_left (Fin w) (S N) i
   =n= Fin (inject_Z 16 + inject_Z (Z.of_nat i) * w / inject_Z (Z.of_nat N)))%js.
Proof.
  intros HN. unfold tick_left, ofNat, ofZ, TRACK_OFFSET.
  rewrite mul_Fin, sub_Fin.
  assert (Hn : inject_Z (Z.of_nat (S N)) - 1 == inject_Z (Z.of_nat N)).
  { rewrite Nat2Z.inj_succ. unfold Z.succ. rewrite inject_Z_plus. ring. }
  assert (Hnz : ~ inject_Z (Z.of_nat (S N)) - 1 == 0).
  { rewrite Hn. change 0 with (inject_Z 0). rewrite inject_Z_injective. lia. }
  rewrite div_Fin by exact Hnz. rewrite add_Fin.
  apply Fin_proper. rewrite Hn. reflexivity.
Qed.

(** A click on tick [i] of [N + 1], computed exactly. *)
Lemma tick_click_result
    (L : Layout) (s : Slider) (w : Q) (N i : nat) :
  disabled s = false -> trackWidth s = Fin w ->
  0 <= w -> w < inject_Z (10 ^ 20) -> (1 <= N)%nat -> (i <= N)%nat ->
  let y := inject_Z (Z.of_nat i) * w / inject_Z (Z.of_nat N) in
  nth_error (place_ticks (Fin w) (S N)) i = Some (tick_left (Fin w) (S N) i)
  /\ placeTicks L (Some (tick_left (Fin w) (S N) i)) s
     = (placed true (ofZ (Qfloor y)) s,
        [Update (ofZ (Qfloor y)) (percentage_of (ofZ (Qfloor y)) (Fin w))])
  /\ (i = O -> Qfloor y = 0%Z)
  /\ (i = N -> Qfloor y = Qfloor w).
Proof.
  intros Hen Hw Hw0 Hwb HN Hi y.
  set (n := inject_Z (Z.of_nat N)) in *.
  set (j := inject_Z (Z.of_nat i)) in *.
  assert (Hn : 0 < n).
  { unfold n. change 0 with (inject_Z 0). rewrite <- Zlt_Qlt. lia. }
  assert (Hnz : ~ n == 0) by (intros C; rewrite C in Hn; discriminate Hn).
  assert (Hj0 : 0 <= j) by (apply inject_Z_nonneg; lia).
  assert (Hjn : j <= n) by (unfold j, n; rewrite <- Zle_Qle; lia).
  assert (Hy0 : 0 <= y).
  { unfold y. apply Qle_shift_div_l; [exact Hn |]. rewrite Qmult_0_l.
    now apply Qmult_le_0_compat. }
  assert (Hyw : y <= w).
  { unfold y. apply Qle_shift_div_r; [exact Hn |].
    rewrite (Qmult_comm w n). now apply Qmult_le_compat_r. }
  assert (Hf0 : (0 <= Qfloor y)%Z) by now apply Qfloor_nonneg.
  assert (Hfw : inject_Z (Qfloor y) <= w).
  { apply Qle_trans with y; [apply Qfloor_le | exact Hyw]. }
  assert (Hfb : (Qfloor y < 10 ^ 20)%Z).
  { rewrite Zlt_Qlt. apply Qle_lt_trans with w; [exact Hfw | exact Hwb]. }
  split; [| split; [| split]].
  - unfold place_ticks. rewrite nth_error_map, nth_error_seq.
    destruct (Nat.ltb_spec i (S N)); [reflexivity | lia].
  - unfold placeTicks.
    assert (Harg : (parseInt_num (tick_left (Fin w) (S N) i) - TRACK_OFFSET)%js
                   = ofZ (Qfloor y)).
    { rewrite (parseInt_num_eq _ _ (tick_left_value w N i HN)).
      - rewrite Qtrunc_nonneg.
        + fold j n y. rewrite Qfloor_shift. change TRACK_OFFSET with (ofZ 16).
          rewrite ofZ_sub. f_equal. lia.
        + fold j n y. apply Qle_trans with (inject_Z 16 + 0); [discriminate |].
          now apply Qplus_le_r.
      - fold j n y. right.
        rewrite Qabs_pos
          by (apply Qle_trans with (inject_Z 16 + 0);
              [discriminate | now apply Qplus_le_r]).
        split.
        + apply Qle_trans with (inject_Z 16 + 0); [discriminate |].
          now apply Qplus_le_r.
        + apply Qle_lt_trans with (inject_Z 16 + w); [now apply Qplus_le_r |].
          apply Qlt_le_trans with (inject_Z 16 + inject_Z (10 ^ 20));
            [now apply Qplus_lt_r |].
          rewrite <- inject_Z_plus, <- Zle_Qle. lia. }
    rewrite Harg.
    rewrite (setPosition_num_eq L _ (inject_Z (Qfloor y)) true s Hen).
    + rewrite Hw.
      assert (Hc : constrain (ofZ (Qtrunc (inject_Z (Qfloor y)))) (Fin 0) (Fin w)
                   = ofZ (Qfloor y)).
      { rewrite Qtrunc_nonneg by now apply inject_Z_nonneg.
        rewrite Qfloor_Z. apply constrain_id; [now apply inject_Z_nonneg | exact Hfw]. }
      rewrite Hc. unfold placed. now rewrite Hw.
    + apply num_eq_refl.
    + destruct (Z.eq_dec (Qfloor y) 0) as [-> | Hnz0]; [left; reflexivity | right].
      rewrite Qabs_pos by now apply inject_Z_nonneg. split.
      * apply Qle_trans with (inject_Z 1); [discriminate |].
        rewrite <- Zle_Qle. lia.
      * rewrite <- Zlt_Qlt. lia.
  - intros ->. unfold y, j. cbn [Z.of_nat].
    rewrite (Qfloor_comp _ 0); [reflexivity |]. field. exact Hnz.
  - intros ->. unfold y, j. fold n.
    apply Qfloor_comp. field. exact Hnz.
Qed.

(** X10. After [resize] on a track of whole width [w], a click on tick [i]
    of [N + 1] ticks (with [(w + 16) * N < 2^50]) puts the thumb of an
    enabled slider, with animation, at pixel [floor(i * w / N)]: the first
    tick at 0, the last at [w]. *)
Theorem tick_click_position
    (L : Layout) (s : Slider) (w : Z) (N i : nat) :
  disabled s = false -> trackWidth s = ofZ w -> (0 <= w)%Z ->
  (1 <= N)%nat -> (i <= N)%nat -> ((w + 16) * Z.of_nat N < 2 ^ 50)%Z ->
  let click := placeTicks L (nth_error (place_ticks (ofZ w) (S N)) i) s in
  positions (snd click) = [ofZ (Z.of_nat i * w / Z.of_nat N)]
  /\ List.length (snd click) = 1%nat
  /\ transition (fst click) = true
  /\ (i = O -> positions (snd click) = [Fin 0])
  /\ (i = N -> positions (snd click) = [ofZ w]).
Proof.
  intros Hen Hw Hw0 HN Hi Hb click.
  assert (Hwb : inject_Z w < inject_Z (10 ^ 20)).
  { rewrite <- Zlt_Qlt. apply Z.le_lt_trans with ((w + 16) * Z.of_nat N)%Z; [nia | lia]. }
  assert (Hw0' : 0 <= inject_Z w) by now apply inject_Z_nonneg.
  destruct (tick_click_result L s (inject_Z w) N i Hen Hw Hw0' Hwb HN Hi)
    as [Hnth [Hclick _]].
  assert (Hfl : Qfloor (inject_Z (Z.of_nat i) * inject_Z w / inject_Z (Z.of_nat N))
                = (Z.of_nat i * w / Z.of_nat N)%Z).
  { rewrite <- inject_Z_mult. apply Qfloor_quotient. lia. }
  rewrite Hfl in Hclick.
  assert (Hpos : positions (snd click) = [ofZ (Z.of_nat i * w / Z.of_nat N)]).
  { unfold click, ofZ at 1. fold (ofZ w). unfold ofZ at 1. rewrite Hnth, Hclick. reflexivity. }
  split; [exact Hpos |]. split; [| split; [| split]].
  - unfold click. unfold ofZ at 1. rewrite Hnth, Hclick. reflexivity.
  - unfold click. unfold ofZ at 1. rewrite Hnth, Hclick. reflexivity.
  - intros ->. rewrite Hpos. cbn [Z.of_nat Z.mul]. now rewrite Z.div_0_l by lia.
  - intros ->. rewrite Hpos. now rewrite Z.mul_comm, Z.div_mul by lia.
Qed.

Lemma tick_click_position_witness :
  let click := placeTicks layout0 (nth_error (place_ticks (ofZ 100) 4) 2) slider100 in
  positions (snd click) = [ofZ (Z.of_nat 2 * 100 / Z.of_nat 3)]
  /\ List.length (snd click) = 1%nat
  /\ transition (fst click) = true
  /\ (2%nat = O -> positions (snd click) = [Fin 0])
  /\ (2%nat = 3%nat -> positions (snd click) = [ofZ 100]).
Proof.
  apply (tick_click_position layout0 slider100 100 3 2); try reflexivity.
  - apply Z.leb_le. reflexivity.
  - apply Nat.leb_le. reflexivity.
  - apply Nat.leb_le. reflexivity.
Defined.

(** X11. A slider for a single image (size 0) gets one tick, and [resize]
    divides by [ticks.length - 1 = 0] when it places it: whatever the track
    width, the tick's left is [NaN], and a click on it makes the enabled
    slider send the position [NaN]. *)
Theorem single_tick_is_NaN (L : Layout) (W : number) (s : Slider) :
  disabled s = false ->
  marks_created (Fin 0) = Some 1%nat
  /\ place_ticks W 1 = [NaN]
  /\ snd (placeTicks L (nth_error (place_ticks W 1) 0) s) = [Update NaN NaN].
Proof.
  intros Hen.
  assert (H : place_ticks W 1 = [NaN]).
  { unfold place_ticks, tick_left. cbn [seq List.map].
    destruct W as [| | w |]; reflexivity. }
  split; [reflexivity |]. split; [exact H |].
  rewrite H. cbn [nth_error]. unfold placeTicks, setPosition.
  rewrite Hen. cbn [rawPosition parseInt_num].
  assert (E : constrain (parseInt_num (NaN - TRACK_OFFSET)) (Fin 0) (getWidth s) = NaN).
  { cbn. now destruct (getWidth s). }
  now rewrite E.
Qed.

Lemma single_tick_is_NaN_witness :
  marks_created (Fin 0) = Some 1%nat
  /\ place_ticks (Fin 100) 1 = [NaN]
  /\ snd (placeTicks layout0 (nth_error (place_ticks (Fin 100) 1) 0) slider_single)
     = [Update NaN NaN].
Proof. exact (single_tick_is_NaN layout0 (Fin 100) slider_single eq_refl). Defined.

End Ticks.

(** ** The height of the container with labels *)

Section Labels.

Lemma parseInt_str_cases (str : string) :
  parseInt_str str = NaN \/ exists z, parseInt_str str = ofZ z.
Proof.
  unfold parseInt_str.
  destruct (match skip_space str with
            | String "-" r => (true, r)
            | String "+" r => (false, r)
            | _ => (false, skip_space str)
            end) as [negative s2].
  destruct (match s2 with
            | String "0" (String "x" r) | String "0" (String "X" r) => (16%Z, r)
            | _ => (10%Z, s2)
            end) as [radix s3].
  destruct (digits radix s3 None) as [z |]; [right | now left].
  now exists (if negative then (- z)%Z else z).
Qed.

Lemma max_ofZ (a z : Z) : JS.max (ofZ a) (ofZ z) = ofZ (Z.max a z).
Proof.
  cbv [JS.max leb ofZ]. destruct (Qle_bool (inject_Z a) (inject_Z z)) eqn:E.
  - apply Qle_bool_iff in E. rewrite <- Zle_Qle in E. now rewrite Z.max_r.
  - apply Qle_bool_false in E. rewrite <- Zlt_Qlt in E.
    rewrite Z.max_l by lia. reflexivity.
Qed.

Lemma fold_max_NaN (heights : list string) :
  fold_left (fun m h => JS.max m (parseInt_str h)) heights NaN = NaN.
Proof. induction heights as [| h hs IH]; [reflexivity | exact IH]. Qed.

Lemma fold_max_spec (heights : list string) (a : Z) :
  (Exists (fun h => parseInt_str h = NaN) heights
   /\ fold_left (fun m h => JS.max m (parseInt_str h)) heights (ofZ a) = NaN)
  \/ (exists m : Z,
        (a <= m)%Z
        /\ fold_left (fun m h => JS.max m (parseInt_str h)) heights (ofZ a) = ofZ m
        /\ Forall (fun h => exists z, parseInt_str h = ofZ z /\ (z <= m)%Z) heights
        /\ (m = a \/ Exists (fun h => parseInt_str h = ofZ m) heights)).
Proof.
  revert a. induction heights as [| h hs IH]; intros a.
  - right. exists a. repeat split; [lia | constructor | now left].
  - cbn [fold_left]. destruct (parseInt_str_cases h) as [E | [z E]].
    + left. split; [now apply Exists_cons_hd |].
      rewrite E. replace (JS.max (ofZ a) NaN) with NaN by reflexivity.
      apply fold_max_NaN.
    + rewrite E, max_ofZ.
      destruct (IH (Z.max a z)) as [[Hex Hnan] | [m [Hm [Hfold [Hall Hor]]]]].
      * left. split; [now apply Exists_cons_tl | exact Hnan].
      * right. exists m. repeat split; [lia | exact Hfold | |].
        -- constructor; [exists z; split; [exact E | lia] | exact Hall].
        -- destruct Hor as [-> | Hex]; [| right; now apply Exists_cons_tl].
           destruct (Z.max_spec a z) as [[_ ->] | [_ ->]];
             [right; now apply Exists_cons_hd | now left].
Qed.

(** X12. The height [resize] gives a container with labels: when the
    computed height of some label has no leading digits (so [parseInt] gives
    [NaN]) the height is [NaN]; otherwise it is 36 plus the largest parsed
    label height, at least 0, and 7 less when there are no ticks. *)
Theorem container_height_spec (ticks : bool) (heights : list string) :
  (Exists (fun h => parseInt_str h = NaN) heights
   /\ labels_height ticks heights = NaN)
  \/ (exists m : Z,
        (0 <= m)%Z
        /\ labels_height ticks heights
           = ofZ (36 + m + (if ticks then 0 else - 7))
        /\ Forall (fun h => exists z, parseInt_str h = ofZ z /\ (z <= m)%Z) heights
        /\ (m = 0%Z \/ Exists (fun h => parseInt_str h = ofZ m) heights)).
Proof.
  unfold labels_height.
  destruct (fold_max_spec heights 0) as [[Hex Hnan] | [m [Hm [Hfold [Hall Hor]]]]].
  - left. split; [exact Hex |].
    change (Fin 0) with (ofZ 0). now rewrite Hnan.
  - right. exists m. repeat split; trivial.
    change (Fin 0) with (ofZ 0) at 1. rewrite Hfold.
    change CONTAINER_DEFAULT_HEIGHT with (ofZ 36).
    destruct ticks.
    + change (Fin 0) with (ofZ 0). now rewrite !ofZ_add.
    + change (Fin (-7)) with (ofZ (-7)). now rewrite !ofZ_add.
Qed.

End Labels.

(** ** The mouse button flag along a run *)

Section MouseFlag.

Lemma setPosition_mousedown
    (L : Layout) (v : jsval) (animate resize : bool) (s : Slider) :
  mousedown (fst (setPosition L v animate resize s)) = mousedown s.
Proof.
  unfold setPosition. destruct (disabled s); [reflexivity |].
  now destruct (rawPosition L v s).
Qed.

Lemma snap_mousedown (L : Layout) (s : Slider) :
  mousedown (fst (snap L s)) = mousedown s.
Proof.
  unfold snap. rewrite and_then_fst. unfold release_interaction.
  match goal with |- context [sliderdown ?x] => destruct (sliderdown x) end;
    cbn [fst set_sliderdown mousedown];
    (destruct (opt_snap s); [apply setPosition_mousedown | reflexivity]).
Qed.

Lemma handle_keeps_button_up (L : Layout) (ev : Event) :
  is_press ev = false -> keeps (fun s => mousedown s = false) (handle L ev).
Proof.
  intros Hev. destruct ev; try discriminate Hev; cbn [handle]; intros s H.
  - now rewrite setPosition_mousedown.
  - now rewrite snap_mousedown.
  - rewrite and_then_fst. cbn [fst add_touchmove_listener mousedown].
    now rewrite setPosition_mousedown.
  - refine (keeps_times (fun s0 => mousedown s0 = false) _ _ _ s H).
    intros s0 H0. now rewrite setPosition_mousedown.
  - now rewrite snap_mousedown.
  - unfold on_keydown.
    refine (keeps_and_then (fun s0 => mousedown s0 = false) _ _ _ _ s H);
      intros s0 H0;
      match goal with |- context [if ?c then _ else _] => destruct c end;
      try exact H0; unfold key_step; now rewrite setPosition_mousedown.
  - rewrite and_then_fst. cbn [fst set_keydown mousedown].
    now rewrite snap_mousedown.
  - now rewrite setPosition_mousedown.
  - unfold resize. now rewrite setPosition_mousedown.
  - exact H.
  - exact H.
Qed.

(** X13. Only a mousedown on the track or the thumb raises the button
    flag: from a slider whose flag is down (as after any mouse-up), across
    any events and calls that contain no such press, the flag stays down and
    a mousemove is still ignored, leaving the slider as it is and sending
    nothing. *)
Theorem hover_ignored_until_press
    (tr : list (Layout * Event)) (s : Slider) (L : Layout) (x : number) :
  mousedown s = false -> no_press tr = true ->
  mousedown (fst (run tr s)) = false
  /\ handle L (DocMouseMove x) (fst (run tr s)) = (fst (run tr s), [])
  /\ mousedown (fst (handle L DocMouseUp s)) = false.
Proof.
  intros H Hp.
  assert (G : mousedown (fst (run tr s)) = false).
  { revert s H. induction tr as [| [L0 ev] tr IH]; intros s H; [exact H |].
    simpl in Hp. apply andb_true_iff in Hp. destruct Hp as [Hev Htr].
    apply negb_true_iff in Hev.
    rewrite run_cons, and_then_fst. apply (IH Htr).
    now apply handle_keeps_button_up. }
  split; [exact G |]. split.
  - cbn [handle]. unfold setPosition, rawPosition. rewrite G.
    cbn [mouse_event ev_type negb andb String.eqb Ascii.eqb Bool.eqb].
    now destruct (disabled (fst (run tr s))).
  - cbn [handle]. now rewrite snap_mousedown.
Qed.

Lemma hover_ignored_until_press_witness :
  let tr := [(layout0, DocMouseUp); (layout0, ThumbKeyDown 39);
             (layout0, TouchStart (Fin 70)); (layout0, CallResize)] in
  mousedown (fst (run tr slider100_at30)) = false
  /\ handle layout0 (DocMouseMove (Fin 90)) (fst (run tr slider100_at30))
     = (fst (run tr slider100_at30), [])
  /\ mousedown (fst (handle layout0 DocMouseUp slider100_at30)) = false.
Proof.
  exact (hover_ignored_until_press
           [(layout0, DocMouseUp); (layout0, ThumbKeyDown 39);
            (layout0, TouchStart (Fin 70)); (layout0, CallResize)]
           slider100_at30 layout0 (Fin 90) eq_refl eq_refl).
Defined.

End MouseFlag.
